(** * maharani-json-extractor: the knowledge-file builder

    A shallow embedding of [scripts/build_heygen_knowledge_env.py] and the
    properties of its text normaliser, chunker, aggregator, actor-record
    extraction, placeholder resolution and gating on credentials.

    Python strings are sequences of Unicode code points: a character is a
    code point ([N]) and a string a list of them.  Dictionaries keep their
    insertion order, which [extract_apify_text_fields] observes, so they are
    association lists whose keys are unique.  The network, the YAML, JSON
    and HTML parsers and [str()] of non-string values are parameters of the
    development ([runtime]).  [sources.yaml], when it exists, is taken to
    be readable as UTF-8 text, and the settings that [httpx] reads from the
    process environment to let it make clients: making a client fails only
    on a header that it cannot encode.  What a run prints on stderr and
    stdout, the time spent waiting between retries and the creation of
    [dist/] are outside the model. *)

From Stdlib Require Import ZArith NArith List String Ascii Lia.
From Stdlib Require Import Floats.SpecFloat.
From stdpp Require Import base decidable countable list gmap.

Local Open Scope nat_scope.
Local Set Warnings "-register-all,-clear-no-such-hyp".

(** ** Strings *)

Abbreviation char := N (only parsing).
Abbreviation str := (list N) (only parsing).

(** A string literal of the source. *)
Definition lit (s : string) : str :=
  List.map N_of_ascii (list_ascii_of_string s).

(** [ch.isspace()] as [str.split()] and [str.strip()] use it: the code
    points Unicode classes as whitespace. *)
Definition isspace (c : char) : bool :=
  ((9 <=? c) && (c <=? 13) || (28 <=? c) && (c <=? 32)
   || (c =? 133) || (c =? 160) || (c =? 5760)
   || (8192 <=? c) && (c <=? 8202)
   || (c =? 8232) || (c =? 8233) || (c =? 8239) || (c =? 8287)
   || (c =? 12288))%N.

Definition SPACE : char := 32%N.
Definition NEWLINE : char := 10%N.

(** [sep.join(parts)] *)
Fixpoint join (sep : str) (parts : list str) : str :=
  match parts with
  | [] => []
  | [p] => p
  | p :: ps => p ++ sep ++ join sep ps
  end.

(** [text.split()]: maximal runs of non-whitespace characters.  [cur] is the
    word being read. *)
Fixpoint split_from (cur : str) (s : str) : list str :=
  match s with
  | [] => match cur with [] => [] | _ => [cur] end
  | c :: s' =>
      if isspace c
      then match cur with
           | [] => split_from [] s'
           | _ => cur :: split_from [] s'
           end
      else split_from (cur ++ [c]) s'
  end.

Definition split (text : str) : list str := split_from [] text.

Fixpoint lstrip (s : str) : str :=
  match s with
  | c :: s' => if isspace c then lstrip s' else s
  | [] => []
  end.

Definition rstrip (s : str) : str := rev (lstrip (rev s)).

(** [s.strip()] *)
Definition strip (s : str) : str := rstrip (lstrip s).

(** Truth value of a string: non-empty. *)
Definition truthy_str (s : str) : bool :=
  match s with [] => false | _ => true end.

(** [clean_text] *)
Definition clean_text (text : str) : str := strip (join [SPACE] (split text)).

(** [text[i:j]] for [0 <= i <= j]. *)
Definition slice (text : str) (i j : nat) : str := take (j - i) (drop i text).

(** [range(0, stop, step)] for [step > 0]: the multiples of [step] below
    [stop]. *)
Definition range_step (stop step : nat) : list nat :=
  (fun k => k * step) <$> seq 0 (Nat.div (stop + step - 1) step).

Definition CHUNK : nat := 800.

(** The chunking loop shared by both builders:
    [for i in range(0, len(text), 800): chunk = text[i:i+800]]. *)
Definition chunks (text : str) : list str :=
  (fun i => slice text i (i + CHUNK)) <$> range_step (length text) CHUNK.

(** ** Aggregation *)

(** [dedupe_keep_order]: the loop over [items] with its [seen] set and its
    [out] list. *)
Fixpoint dedupe_loop (seen : gset str) (out : list str) (items : list str)
  : list str :=
  match items with
  | [] => out
  | it :: items' =>
      if decide (it ∈ seen)
      then dedupe_loop seen out items'
      else dedupe_loop ({[it]} ∪ seen) (out ++ [it]) items'
  end.

Definition dedupe_keep_order (items : list str) : list str :=
  dedupe_loop ∅ [] items.

(** [[clean_text(x) for x in all_lines if x and x.strip()]] *)
Definition normalize_lines (all_lines : list str) : list str :=
  clean_text <$>
    List.filter (fun x => truthy_str x && truthy_str (strip x)) all_lines.

(** Lines 249-250 of [main]. *)
Definition aggregate (all_lines : list str) : list str :=
  dedupe_keep_order (normalize_lines all_lines).

(** ** JSON-like values *)

(** What [yaml.safe_load], [r.json()] and [json.loads] return.  A [JDict]
    lists the items of a dictionary in insertion order. *)
Inductive json : Type :=
| JNull
| JBool (b : bool)
| JInt (n : Z)
| JFloat (f : spec_float)
| JStr (s : str)
| JList (xs : list json)
| JDict (kvs : list (str * json)).

Abbreviation dict := (list (str * json)) (only parsing).

(** [bool(v)] *)
Definition truthy (v : json) : bool :=
  match v with
  | JNull => false
  | JBool b => b
  | JInt n => negb (n =? 0)%Z
  | JFloat (S754_zero _) => false
  | JFloat _ => true
  | JStr s => truthy_str s
  | JList [] => false
  | JList _ => true
  | JDict [] => false
  | JDict _ => true
  end.

(** [a or b] *)
Definition py_or (a b : json) : json := if truthy a then a else b.

(** The item stored under [key], if any. *)
Fixpoint dict_lookup (d : dict) (key : str) : option json :=
  match d with
  | [] => None
  | (k, v) :: d' => if decide (k = key) then Some v else dict_lookup d' key
  end.

(** [d.get(key, default)] and [d.get(key)] *)
Definition dict_get_default (d : dict) (key : str) (default : json) : json :=
  match dict_lookup d key with Some v => v | None => default end.

Definition dict_get (d : dict) (key : str) : json :=
  dict_get_default d key JNull.

(** [d[key] = v]: an existing key keeps its position. *)
Fixpoint dict_set (d : dict) (key : str) (v : json) : dict :=
  match d with
  | [] => [(key, v)]
  | (k, w) :: d' =>
      if decide (k = key) then (k, v) :: d' else (k, w) :: dict_set d' key v
  end.

(** [d.setdefault(key, default)], for its effect on [d]. *)
Definition dict_setdefault (d : dict) (key : str) (default : json) : dict :=
  match dict_lookup d key with
  | Some _ => d
  | None => d ++ [(key, default)]
  end.

(** [{k: v for k, v in items}] *)
Definition dict_of_items (items : list (str * json)) : dict :=
  fold_left (fun d kv => dict_set d kv.1 kv.2) items [].

Definition dict_keys (d : dict) : list str := fst <$> d.

(** ** Text of an actor record *)

Definition PRIORITY_KEYS : list str :=
  [lit "caption"; lit "text"; lit "summary"; lit "title";
   lit "description"; lit "alt"; lit "content"].

(** First loop of [extract_apify_text_fields]. *)
Definition priority_step (item : dict) (candidates : list str) (key : str)
  : list str :=
  match dict_get item key with
  | JStr val =>
      if truthy_str (strip val) then candidates ++ [strip val] else candidates
  | _ => candidates
  end.

(** Second loop of [extract_apify_text_fields]. *)
Definition fallback_step (candidates : list str) (kv : str * json) : list str :=
  match kv.2 with
  | JStr v => if 20 <? length v then candidates ++ [v] else candidates
  | _ => candidates
  end.

Definition extract_apify_text_fields (item : dict) : str :=
  let candidates := fold_left (priority_step item) PRIORITY_KEYS [] in
  let candidates :=
    match candidates with
    | [] => fold_left fallback_step item candidates
    | _ => candidates
    end in
  match candidates with
  | [] => []
  | _ => clean_text (join [SPACE] candidates)
  end.

(** [it.get("url") or it.get("link") or it.get("permalink") or actor] *)
Definition apify_source (it : dict) (actor : json) : json :=
  py_or (dict_get it (lit "url"))
    (py_or (dict_get it (lit "link"))
       (py_or (dict_get it (lit "permalink")) actor)).

(** ** The placeholder pattern *)

Definition is_ident_start (c : char) : bool :=
  ((65 <=? c) && (c <=? 90) || (97 <=? c) && (c <=? 122) || (c =? 95))%N.

Definition is_ident_char (c : char) : bool :=
  (is_ident_start c || (48 <=? c) && (c <=? 57))%N.

Fixpoint strip_prefix (p s : str) : option str :=
  match p, s with
  | [], _ => Some s
  | a :: p', b :: s' => if (a =? b)%N then strip_prefix p' s' else None
  | _ :: _, [] => None
  end.

(** The longest run of identifier characters at the head of [s], and what
    follows it. *)
Fixpoint span_ident (s : str) : str * str :=
  match s with
  | c :: s' =>
      if is_ident_char c
      then let '(w, r) := span_ident s' in (c :: w, r)
      else ([], s)
  | [] => ([], [])
  end.

(** A match of the placeholder pattern at the head of [s]: a dollar sign, an
    opening brace, [ENV:], a name (a letter or underscore, then any number of
    letters, digits and underscores) and a closing brace.  The result is the
    captured name and the text after the match.  The closing brace is not an
    identifier character, so the greedy run is the only candidate. *)
Definition match_placeholder (s : str) : option (str * str) :=
  match strip_prefix (lit "${ENV:") s with
  | Some (c :: s1) =>
      if is_ident_start c
      then let '(w, r) := span_ident s1 in
           match r with
           | 125%N :: rest => Some (c :: w, rest)
           | _ => None
           end
      else None
  | _ => None
  end.

(** [re.sub(pattern, _subst, s)]: leftmost matches, left to right, not
    overlapping.  [fuel] bounds the number of characters still to read. *)
Fixpoint re_sub_env (subst : str -> str) (fuel : nat) (s : str) : str :=
  match fuel with
  | 0 => s
  | S fuel' =>
      match s with
      | [] => []
      | c :: s' =>
          match match_placeholder s with
          | Some (var, rest) => subst var ++ re_sub_env subst fuel' rest
          | None => c :: re_sub_env subst fuel' s'
          end
      end
  end.

(** ** Lines of a text *)

(** [text.splitlines()]: the line boundaries of Python, a carriage return
    followed by a line feed counting as one. *)
Definition is_linebreak (c : char) : bool :=
  ((10 <=? c) && (c <=? 13) || (28 <=? c) && (c <=? 30)
   || (c =? 133) || (c =? 8232) || (c =? 8233))%N.

Fixpoint splitlines_from (cur : str) (s : str) : list str :=
  match s with
  | [] => match cur with [] => [] | _ => [cur] end
  | c :: s' =>
      if is_linebreak c
      then match s' with
           | c' :: s'' =>
               if ((c =? 13) && (c' =? 10))%N
               then cur :: splitlines_from [] s''
               else cur :: splitlines_from [] s'
           | [] => [cur]
           end
      else splitlines_from (cur ++ [c]) s'
  end.

Definition splitlines (text : str) : list str := splitlines_from [] text.

(** ** Effects: exceptions, the network and the output file *)

Inductive exn : Type :=
| TransportError
| HTTPStatusError (status : Z)
| JSONDecodeError
| YAMLError
| ParserError
| AttributeError
| TypeError
| UnicodeEncodeError
| RetryError (last : exn).

(** An [httpx.Response]: [r.status_code], [r.text], and what [r.json()]
    returns or raises. *)
Record response : Type := {
  r_status_code : Z;
  r_text : str;
  r_json : exn + json
}.

(** The HTTP requests of the script, one constructor per call site:
    - [FirecrawlScrape url]: POST [{FIRECRAWL_BASE}/v1/scrape];
    - [FirecrawlCrawl url]: POST [{FIRECRAWL_BASE}/v1/crawl];
    - [Get url]: GET [url], the direct fetch;
    - [ApifyRunSync actor input]: POST
      [{APIFY_BASE}/v2/acts/{actor}/run-sync-get-dataset-items]. *)
Inductive request : Type :=
| FirecrawlScrape (url : json)
| FirecrawlCrawl (url : json)
| Get (url : json)
| ApifyRunSync (actor : json) (actor_input : json).

(** What a run changes: the requests sent so far, oldest first, and the
    content of [dist/heygen_knowledge.txt] once written. *)
Record world : Type := {
  calls : list request;
  out_txt : option str
}.

Definition world0 : world := {| calls := []; out_txt := None |}.

(** What a run reads and calls but does not define. *)
Record runtime : Type := {
  (** [os.environ] *)
  getenv : str -> option str;
  (** the answer to a request, given the requests sent before it *)
  net : list request -> request -> exn + response;
  (** the text of [sources.yaml], [None] when the file does not exist *)
  sources_yaml : option str;
  yaml_safe_load : str -> exn + json;
  json_loads : str -> exn + json;
  (** [BeautifulSoup(html, "html.parser")] with its [script], [style] and
      [noscript] elements decomposed, then [soup.get_text(" ")] *)
  soup_get_text : str -> exn + str;
  (** [str(v)] for a value that is not a string *)
  str_of_value : json -> str
}.

(** A computation that may send requests, write the output file and raise. *)
Definition M (A : Type) : Type := world -> world * (exn + A).

Definition ret {A} (a : A) : M A := fun w => (w, inr a).
Definition raise {A} (e : exn) : M A := fun w => (w, inl e).
Definition bind {A B} (m : M A) (k : A -> M B) : M B :=
  fun w => match m w with
           | (w', inr a) => k a w'
           | (w', inl e) => (w', inl e)
           end.
(** [try: m except Exception as e: h e] *)
Definition try_except {A} (m : M A) (h : exn -> M A) : M A :=
  fun w => match m w with
           | (w', inr a) => (w', inr a)
           | (w', inl e) => h e w'
           end.
Definition lift {A} (r : exn + A) : M A := fun w => (w, r).

#[local] Instance M_ret : MRet M := @ret.
#[local] Instance M_bind : MBind M := fun A B k m => bind m k.

(** [@retry(stop=stop_after_attempt(n), wait=...)]: call again after an
    exception, [n] attempts in all, then [RetryError].  Waiting takes time
    and changes nothing else. *)
Fixpoint retry_from {A} (left : nat) (last : exn) (body : M A) : M A :=
  match left with
  | 0 => raise (RetryError last)
  | S left' => try_except body (fun e => retry_from left' e body)
  end.

Definition retry {A} (attempts : nat) (body : M A) : M A :=
  retry_from attempts TransportError body.

(** [for x in v]: what iterating over a value yields. *)
Definition py_iter (v : json) : exn + list json :=
  match v with
  | JList xs => inr xs
  | JStr s => inr ((fun c => JStr [c]) <$> s)
  | JDict d => inr (JStr <$> dict_keys d)
  | _ => inl TypeError
  end.

Definition truthy_opt (t : option str) : bool :=
  match t with Some s => truthy_str s | None => false end.

(** ** The script *)

Section Script.
Variable R : runtime.

(** [os.getenv(name, default)] *)
Definition os_getenv (name default : str) : str :=
  match getenv R name with Some v => v | None => default end.

Definition FIRECRAWL_API_KEY : str := os_getenv (lit "FIRECRAWL_API_KEY") [].
Definition APIFY_TOKEN : str := os_getenv (lit "APIFY_TOKEN") [].

(** [f"{v}"] *)
Definition fmt (v : json) : str :=
  match v with JStr s => s | _ => str_of_value R v end.

(** [read_sources]; [data] is [yaml.safe_load(...) or {}]. *)
Definition read_sources : exn + list (str * json) :=
  match sources_yaml R with
  | None => inr [(lit "web", JList []); (lit "apify", JList [])]
  | Some content =>
      match yaml_safe_load R content with
      | inl e => inl e
      | inr loaded =>
          match py_or loaded (JDict []) with
          | JDict data =>
              inr (dict_setdefault
                     (dict_setdefault data (lit "web") (JList []))
                     (lit "apify") (JList []))
          | _ => inl AttributeError
          end
      end
  end.

(** [_subst]: the value of the variable, the empty string when unset. *)
Definition _subst (var : str) : str := os_getenv var [].

Fixpoint resolve_env_placeholders (obj : json) : json :=
  match obj with
  | JDict kvs =>
      JDict (dict_of_items
               ((fun kv => let '(k, v) := kv in (k, resolve_env_placeholders v))
                  <$> kvs))
  | JList xs => JList (resolve_env_placeholders <$> xs)
  | JStr s => JStr (re_sub_env _subst (length s) s)
  | _ => obj
  end.

(** [client.post(...)] and [client.get(...)] *)
Definition send (rq : request) : M response :=
  fun w => ({| calls := calls w ++ [rq]; out_txt := out_txt w |},
            net R (calls w) rq).

(** [r.raise_for_status()] *)
Definition raise_for_status (r : response) : M unit :=
  if ((200 <=? r_status_code r) && (r_status_code r <? 300))%Z
  then ret tt
  else raise (HTTPStatusError (r_status_code r)).

Definition simple_fetch_body (url : json) : M str :=
  r ← send (Get url);
  raise_for_status r;;
  ret (r_text r).

Definition simple_fetch (url : json) : M str :=
  retry 3 (simple_fetch_body url).

Definition extract_text_from_html (html : str) : exn + str :=
  match soup_get_text R html with
  | inl e => inl e
  | inr t => inr (clean_text t)
  end.

Definition firecrawl_enabled : bool := truthy_str FIRECRAWL_API_KEY.

(** First [try] block of [firecrawl_scrape]; [Some text] is its
    [return text], [None] is falling out of the block. *)
Definition scrape_attempt (url : json) : M (option str) :=
  r ← send (FirecrawlScrape url);
  if (r_status_code r =? 200)%Z
  then
    data ← lift (r_json r);
    let text :=
      match data with
      | JDict d =>
          py_or (dict_get d (lit "text"))
            (py_or (dict_get d (lit "markdown")) (dict_get d (lit "content")))
      | _ => JNull
      end in
    match text with
    | JStr t => if truthy_str (strip t) then ret (Some t) else ret None
    | _ => ret None
    end
  else ret None.

Definition CRAWL_KEYS : list str :=
  [lit "text"; lit "markdown"; lit "content"; lit "rawText"].

(** The loops filling [parts]; an item that is not a dictionary has no
    [get]. *)
Definition crawl_item_parts (it : json) : exn + list str :=
  match it with
  | JDict d =>
      inr (omap (fun k => match dict_get d k with
                          | JStr s => Some s
                          | _ => None
                          end) CRAWL_KEYS)
  | _ => inl AttributeError
  end.

Fixpoint crawl_parts (items : list json) : exn + list str :=
  match items with
  | [] => inr []
  | it :: items' =>
      match crawl_item_parts it with
      | inl e => inl e
      | inr ps =>
          match crawl_parts items' with
          | inl e => inl e
          | inr qs => inr (ps ++ qs)
          end
      end
  end.

(** Second [try] block of [firecrawl_scrape]. *)
Definition crawl_attempt (url : json) : M (option str) :=
  r ← send (FirecrawlCrawl url);
  if (r_status_code r =? 200)%Z
  then
    data ← lift (r_json r);
    match data with
    | JDict d =>
        let items :=
          py_or (dict_get d (lit "items"))
            (py_or (dict_get d (lit "pages")) (JList [])) in
        match items with
        | JList (it :: items') =>
            parts ← lift (crawl_parts (it :: items'));
            match parts with
            | [] => ret None
            | _ => ret (Some (join [NEWLINE; NEWLINE] parts))
            end
        | _ => ret None
        end
    | _ =>
        if truthy_str (strip (r_text r)) then ret (Some (r_text r))
        else ret None
    end
  else ret None.

(** [s.encode("ascii")] succeeds. *)
Definition ascii_encodable (s : str) : bool :=
  forallb (fun c => (c <? 128)%N) s.

(** [httpx.Client(timeout=60.0, follow_redirects=True,
    headers=_fc_headers())] on line 105: the client encodes the values of
    its headers as ASCII when it is made, so a key with a character
    beyond ASCII raises here, before the two [try] blocks and before any
    request. *)
Definition fc_client : M unit :=
  if ascii_encodable FIRECRAWL_API_KEY then ret tt
  else raise UnicodeEncodeError.

Definition firecrawl_scrape_body (url : json) : M (option str) :=
  if negb firecrawl_enabled then ret None
  else
    fc_client;;
    t ← try_except (scrape_attempt url) (fun _ => ret None);
    match t with
    | Some text => ret (Some text)
    | None => try_except (crawl_attempt url) (fun _ => ret None)
    end.

Definition firecrawl_scrape (url : json) : M (option str) :=
  retry 3 (firecrawl_scrape_body url).

(** Lines 149-154 of [build_lines_from_web]: the direct fetch and the
    extraction of the text of the page. *)
Definition direct_fetch_text (url : json) : M (option str) :=
  try_except
    (html ← simple_fetch url;
     t ← lift (extract_text_from_html html);
     ret (Some t))
    (fun _ => ret None).

(** Lines 143-154 of [build_lines_from_web]: the text fetched for [url],
    if any. *)
Definition web_fetch_text (url : json) : M (option str) :=
  text ← try_except (firecrawl_scrape url) (fun _ => ret None);
  if negb (truthy_opt text) then direct_fetch_text url else ret text.

Definition web_line (url : json) (chunk : str) : str :=
  lit "SRC:WEB " ++ fmt url ++ lit " | " ++ chunk.

(** Lines 156-160 of [build_lines_from_web]: the lines appended for
    [url]. *)
Definition web_lines (url : json) (text : option str) : list str :=
  match text with
  | Some (c :: t) => web_line url <$> chunks (clean_text (c :: t))
  | _ => []
  end.

Fixpoint web_loop (lines : list str) (urls : list json) : M (list str) :=
  match urls with
  | [] => ret lines
  | url :: urls' =>
      text ← web_fetch_text url;
      web_loop (lines ++ web_lines url text) urls'
  end.

Definition build_lines_from_web (urls : json) : M (list str) :=
  us ← lift (py_iter urls);
  web_loop [] us.

Definition apify_enabled : bool := truthy_str APIFY_TOKEN.

(** The newline-delimited fallback of [apify_run_sync]: blank lines and
    lines that do not parse are skipped. *)
Definition ndjson_items (text : str) : list json :=
  omap (fun line =>
          let line := strip line in
          if truthy_str line
          then match json_loads R line with
               | inr v => Some v
               | inl _ => None
               end
          else None)
       (splitlines text).

Definition apify_run_sync_body (actor actor_input : json) : M (list json) :=
  if negb apify_enabled then ret []
  else
    r ← send (ApifyRunSync actor actor_input);
    raise_for_status r;;
    match r_json r with
    | inr (JList data) => ret data
    | _ => ret (ndjson_items (r_text r))
    end.

Definition apify_run_sync (actor actor_input : json) : M (list json) :=
  retry 3 (apify_run_sync_body actor actor_input).

Definition apify_line (src : json) (chunk : str) : str :=
  lit "SRC:APIFY " ++ fmt src ++ lit " | " ++ chunk.

(** Lines 224-229: the lines appended for one record. *)
Definition apify_item_lines (actor : json) (it : list (str * json))
  : list str :=
  let txt := extract_apify_text_fields it in
  let src := apify_source it actor in
  if truthy_str txt then apify_line src <$> chunks txt else [].

(** The loop over [items].  A record that is not a dictionary has no
    [get]: the exception ends the [try] block, and the lines appended
    before it stay in [lines]. *)
Fixpoint apify_items_lines (actor : json) (items : list json) : list str :=
  match items with
  | [] => []
  | JDict it :: items' =>
      apify_item_lines actor it ++ apify_items_lines actor items'
  | _ :: _ => []
  end.

Fixpoint apify_loop (lines : list str) (cfgs : list json) : M (list str) :=
  match cfgs with
  | [] => ret lines
  | JDict cfg :: cfgs' =>
      let actor := dict_get cfg (lit "actor") in
      let actor_input :=
        resolve_env_placeholders
          (dict_get_default cfg (lit "input") (JDict [])) in
      if negb (truthy actor) then apify_loop lines cfgs'
      else
        new ← try_except
                (items ← apify_run_sync actor actor_input;
                 ret (apify_items_lines actor items))
                (fun _ => ret []);
        apify_loop (lines ++ new) cfgs'
  | _ :: _ => raise AttributeError
  end.

Definition build_lines_from_apify (apify_cfg : json) : M (list str) :=
  if negb (truthy apify_cfg) then ret []
  else
    cfgs ← lift (py_iter apify_cfg);
    apify_loop [] cfgs.

(** A surrogate code point, U+D800 to U+DFFF.  A string of [r.json()]
    can hold one; UTF-8 encodes none. *)
Definition is_surrogate (c : char) : bool :=
  ((55296 <=? c) && (c <=? 57343))%N.

(** [s.encode("utf-8")] succeeds. *)
Definition utf8_encodable (s : str) : bool :=
  forallb (fun c => negb (is_surrogate c)) s.

(** [OUT_TXT.write_text(content, encoding="utf-8")]: the file is opened
    for writing, which empties it, and the content is then encoded and
    written.  When the content cannot be encoded the file stays empty and
    the exception leaves [main]. *)
Definition write_out (content : str) : M unit :=
  fun w =>
    if utf8_encodable content
    then ({| calls := calls w; out_txt := Some content |}, inr tt)
    else ({| calls := calls w; out_txt := Some [] |}, inl UnicodeEncodeError).

(** [all_lines] of [main] as it is written out. *)
Definition main_lines : M (list str) :=
  cfg ← lift read_sources;
  let web_urls := dict_get_default cfg (lit "web") (JList []) in
  let apify_cfg := dict_get_default cfg (lit "apify") (JList []) in
  from_web ←
    (if truthy web_urls then build_lines_from_web web_urls else ret []);
  from_apify ←
    (if truthy apify_cfg && apify_enabled
     then build_lines_from_apify apify_cfg
     else ret []);
  ret (aggregate (from_web ++ from_apify)).

(** [main]; the result is the exit status. *)
Definition main : M Z :=
  all_lines ← main_lines;
  write_out (join [NEWLINE] all_lines);;
  ret 0%Z.
End Script.

(** * Vocabulary of the properties *)

Definition nonspace (c : char) : Prop := isspace c = false.

(** A word: a non-empty run of characters that are not whitespace. *)
Definition word (w : str) : Prop := w ≠ [] ∧ Forall nonspace w.

Definition flush (cur : str) : list str :=
  match cur with [] => [] | _ => [cur] end.

(** The ends of a string: its first and its last character are not
    whitespace. *)
Definition trimmed (s : str) : Prop :=
  (∀ c, head s = Some c → nonspace c) ∧ (∀ c, last s = Some c → nonspace c).

(** The position of the first occurrence of [x]. *)
Fixpoint index_of (x : str) (l : list str) : option nat :=
  match l with
  | [] => None
  | y :: l' => if decide (y = x) then Some 0 else S <$> index_of x l'
  end.

(** The values under the priority keys, in the order of the keys, that are
    strings accepted by [keep]. *)
Definition priority_values (keep : str → bool) (item : list (str * json))
    (keys : list str) : list str :=
  omap (fun key => match dict_get item key with
                   | JStr v => if keep v then Some v else None
                   | _ => None
                   end) keys.

(** The string values longer than 20 characters, in the order of the
    record. *)
Definition long_strings (item : list (str * json)) : list str :=
  omap (fun kv : str * json =>
          match kv.2 with
          | JStr v => if 20 <? length v then Some v else None
          | _ => None
          end) item.

(** The text of a record when the priority values are those accepted by
    [keep]: the priority values if there is one, else the long strings;
    joined by single spaces and normalised. *)
Definition text_fields_spec (keep : str → bool) (item : list (str * json))
  : str :=
  let collected :=
    match priority_values keep item PRIORITY_KEYS with
    | [] => long_strings item
    | vs => vs
    end in
  clean_text (join [SPACE] collected).

Definition nonempty : str → bool := truthy_str.
Definition nonblank (v : str) : bool := truthy_str (strip v).

Definition SOURCE_KEYS : list str := [lit "url"; lit "link"; lit "permalink"].

(** The value of the first key of [SOURCE_KEYS] that the record has, else
    the actor. *)
Definition first_present (it : list (str * json)) (actor : json) : json :=
  match omap (dict_lookup it) SOURCE_KEYS with
  | v :: _ => v
  | [] => actor
  end.

(** The first of the values under [SOURCE_KEYS] that is true, else the
    actor.  A missing key reads as [None]. *)
Definition first_truthy (it : list (str * json)) (actor : json) : json :=
  match List.filter truthy (dict_get it <$> SOURCE_KEYS) with
  | v :: _ => v
  | [] => actor
  end.

(** A value as Python holds it: the keys of every dictionary are distinct. *)
Fixpoint wf_json (v : json) : bool :=
  match v with
  | JList xs => forallb wf_json xs
  | JDict kvs =>
      bool_decide (NoDup (fst <$> kvs))
      && forallb (fun kv => let '(_, w) := kv in wf_json w) kvs
  | _ => true
  end.

(** The structure of a value: the value with every string leaf blanked. *)
Fixpoint skeleton (v : json) : json :=
  match v with
  | JStr _ => JStr []
  | JList xs => JList (skeleton <$> xs)
  | JDict kvs => JDict ((fun kv => let '(k, w) := kv in (k, skeleton w)) <$> kvs)
  | _ => v
  end.

(** The world after sending [rqs]. *)
Definition sent (w : world) (rqs : list request) : world :=
  {| calls := calls w ++ rqs; out_txt := out_txt w |}.

(** [m] only sends requests that satisfy [P], and leaves the output file
    alone. *)
Definition sends {A} (P : request → Prop) (m : M A) : Prop :=
  ∀ w, ∃ new, (m w).1 = sent w new ∧ Forall P new.

(** [m] never raises. *)
Definition total {A} (m : M A) : Prop := ∀ w, ∃ a, (m w).2 = inr a.

Definition is_web_request (rq : request) : Prop :=
  match rq with ApifyRunSync _ _ => False | _ => True end.

Definition starts_with (p s : str) : bool :=
  match strip_prefix p s with Some _ => true | None => false end.

(** The texts fetched for [urls], in order. *)
Fixpoint web_texts (R : runtime) (urls : list json) : M (list (option str)) :=
  match urls with
  | [] => ret []
  | url :: urls' =>
      t ← web_fetch_text R url;
      ts ← web_texts R urls';
      ret (t :: ts)
  end.

(** ** Scenarios *)

Definition no_env : str → option str := fun _ => None.

Definition one_env (name value : str) : str → option str :=
  fun n => if decide (n = name) then Some value else None.

Definition page (body : str) : response :=
  {| r_status_code := 200; r_text := body; r_json := inl JSONDecodeError |}.

Definition json_page (v : json) : response :=
  {| r_status_code := 200; r_text := []; r_json := inr v |}.

(** A run in the environment [env]: [sources.yaml] is absent ([None]) or
    loads as [config], the request [rq] is answered by [answer rq] whatever
    was sent before, and pages are plain text, which [get_text] returns as
    it is. *)
Definition scenario (env : str → option str) (config : option (exn + json))
    (answer : request → exn + response) : runtime :=
  {| getenv := env;
     net := fun _ rq => answer rq;
     sources_yaml := (fun _ => lit "sources") <$> config;
     yaml_safe_load := fun _ => match config with
                                | Some c => c
                                | None => inl YAMLError
                                end;
     json_loads := fun _ => inl JSONDecodeError;
     soup_get_text := fun html => inr html;
     str_of_value := fun _ => [] |}.

(** No credential is set and every URL answers with the page [body]. *)
Definition plain_site (config : option (exn + json)) (body : str) : runtime :=
  scenario no_env config
    (fun rq => match rq with
               | Get _ => inr (page body)
               | _ => inl TransportError
               end).

Definition url_a : json := JStr (lit "http://example.test/a").

Definition web_config (urls : list json) : option (exn + json) :=
  Some (inr (JDict [(lit "web", JList urls); (lit "apify", JList [])])).

(** A text of 801 characters whose 800th is a space. *)
Definition long_text : str := repeat 97%N 799 ++ lit " b".

Definition long_site : runtime := plain_site (web_config [url_a]) long_text.
Definition hello_site : runtime :=
  plain_site (web_config [url_a]) (lit "Hello   World").
Definition broken_site : runtime := plain_site (Some (inl YAMLError)) [].
Definition absent_site : runtime := plain_site None [].

Definition actor_xy : json := JStr (lit "x/y").

(** The token is set and the actor answers with one record. *)
Definition actor_site : runtime :=
  scenario (one_env (lit "APIFY_TOKEN") (lit "secret"))
    (Some (inr (JDict [(lit "web", JList []);
                       (lit "apify",
                        JList [JDict [(lit "actor", actor_xy);
                                      (lit "input", JDict [])]])])))
    (fun rq => match rq with
               | ApifyRunSync _ _ =>
                   inr (json_page
                          (JList [JDict [(lit "text", JStr (lit "Hi there"));
                                         (lit "url", JStr (lit "http://s.test"))]]))
               | _ => inl TransportError
               end).

(** The same actor is configured, with a web source, and no credential is
    set. *)
Definition no_token_site : runtime :=
  plain_site
    (Some (inr (JDict [(lit "web", JList [url_a]);
                       (lit "apify",
                        JList [JDict [(lit "actor", actor_xy);
                                      (lit "input", JDict [])]])])))
    (lit "Hello   World").

(** The scraping service is enabled and answers with a text that holds a
    lone surrogate, as [r.json()] makes of an escaped one. *)
Definition surrogate_site : runtime :=
  scenario (one_env (lit "FIRECRAWL_API_KEY") (lit "key"))
    (web_config [url_a])
    (fun rq => match rq with
               | FirecrawlScrape _ =>
                   inr (json_page (JDict [(lit "text", JStr [104%N; 55296%N])]))
               | _ => inl TransportError
               end).

(** The key of the scraping service holds a character beyond ASCII; the
    service would answer, and so does the page. *)
Definition accented_key_site : runtime :=
  scenario (one_env (lit "FIRECRAWL_API_KEY") [107%N; 233%N])
    (web_config [url_a])
    (fun rq => match rq with
               | FirecrawlScrape _ =>
                   inr (json_page (JDict [(lit "text", JStr (lit "scraped"))]))
               | Get _ => inr (page (lit "Hello"))
               | _ => inl TransportError
               end).

Definition region_site : runtime :=
  scenario (one_env (lit "REGION") (lit "eu")) None (fun _ => inl TransportError).

Definition search_input : json :=
  JDict [(lit "q", JStr (lit "${ENV:REGION}-weddings ${ENV:MISSING}"));
         (lit "tags", JList [JStr (lit "a"); JInt 3; JNull]);
         (lit "page", JDict [(lit "size", JInt 20); (lit "deep", JBool true)])].

Definition blank_caption_item : list (str * json) :=
  [(lit "caption", JStr (lit " "));
   (lit "note", JStr (lit "a note of more than twenty characters"))].

Definition empty_url_item : list (str * json) :=
  [(lit "url", JStr []);
   (lit "link", JStr (lit "http://s.test/l"));
   (lit "text", JStr (lit "Hi there"))].

Definition hi_item : list (str * json) :=
  [(lit "text", JStr (lit "Hi there")); (lit "url", JStr (lit "http://s.test"))].

(** * The placeholder script *)

(** [scripts/build_heygen_knowledge.py]: what it reads. *)
Record naive_runtime : Type := {
  (** [sources.yaml]: [None] when the file does not exist, else what
      [read_text] returns or raises *)
  naive_sources : option (exn + str);
  (** [datetime.datetime.utcnow().isoformat()] *)
  utcnow_isoformat : str
}.

(** The body of the loop of [read_sources_naive] on one line. *)
Definition naive_url (line : str) : option str :=
  let s := strip line in
  if starts_with (lit "- ") s then Some (strip (drop 2 s)) else None.

Definition read_sources_naive (N : naive_runtime) : list str :=
  match naive_sources N with
  | Some (inr text) => omap naive_url (splitlines text)
  | _ => []
  end.

Definition DEFAULT_URL : str := lit "https://www.maharaniweddings.com/".

Definition naive_line (url : str) : str :=
  lit "SOURCE:" ++ url
  ++ lit " | Placeholder content. Replace with Firecrawl/Apify later.".

(** [lines] of the naive [main]. *)
Definition naive_lines (N : naive_runtime) : list str :=
  let urls := match read_sources_naive N with
              | [] => [DEFAULT_URL]
              | urls => urls
              end in
  (lit "BUILD_TS:" ++ utcnow_isoformat N ++ lit "Z") :: (naive_line <$> urls).

(** The naive [main]: the text written to [dist/heygen_knowledge.txt] and the
    exit status. *)
Definition naive_main (N : naive_runtime) : str * Z :=
  (join [NEWLINE] (naive_lines N), 0%Z).

Definition naive_file (text : str) : naive_runtime :=
  {| naive_sources := Some (inr text); utcnow_isoformat := lit "2025-01-01T00:00:00" |}.

(** ** Vocabulary of the further properties *)

(** The characters of [s] that are not whitespace, in order. *)
Definition visible (s : str) : str :=
  List.filter (fun c => negb (isspace c)) s.

Definition EMPTY_CONFIG : list (str * json) :=
  [(lit "web", JList []); (lit "apify", JList [])].

Definition is_dict (v : json) : bool :=
  match v with JDict _ => true | _ => false end.

(** A name the placeholder pattern accepts: a letter or an underscore, then
    letters, digits and underscores. *)
Definition valid_name (name : str) : bool :=
  match name with
  | c :: tail => is_ident_start c && forallb is_ident_char tail
  | [] => false
  end.

(** The text of a placeholder for [name]. *)
Definition placeholder (name : str) : str := lit "${ENV:" ++ name ++ lit "}".

(** What [resolve_env_placeholders] makes of the string [s]. *)
Definition resolved (R : runtime) (s : str) : str :=
  re_sub_env (_subst R) (length s) s.

Definition DOLLAR : char := 36%N.

(** No string of the value holds a dollar sign. *)
Fixpoint dollar_free (v : json) : bool :=
  match v with
  | JStr s => forallb (fun c => negb (c =? DOLLAR)%N) s
  | JList xs => forallb dollar_free xs
  | JDict kvs => forallb (fun kv => let '(_, w) := kv in dollar_free w) kvs
  | _ => true
  end.

(** [m] changes nothing: it sends no request and writes no file. *)
Definition quiet {A} (m : M A) : Prop := ∀ w, (m w).1 = w.

Definition is_web_line (l : str) : bool := starts_with (lit "SRC:WEB ") l.
Definition is_apify_line (l : str) : bool := starts_with (lit "SRC:APIFY ") l.

(** The request that runs the actor of the entry [cfg]. *)
Definition actor_request (R : runtime) (cfg : list (str * json)) : request :=
  ApifyRunSync (dict_get cfg (lit "actor"))
    (resolve_env_placeholders R
       (dict_get_default cfg (lit "input") (JDict []))).

Definition any_request (rq : request) : Prop := True.

Definition is_blank_char (c : char) : Prop := isspace c = true.

(** [words_of s ws]: [ws] are the maximal runs of characters of [s] that
    are not whitespace, in order.  A text of blanks has none.  Any other
    text is blanks, then a word, then a rest that is empty or starts with a
    blank, so that the word cannot be extended; the words of the rest
    follow. *)
Inductive words_of : str → list str → Prop :=
| words_of_blank (bs : str) :
    Forall is_blank_char bs → words_of bs []
| words_of_word (bs w rest : str) (ws : list str) :
    Forall is_blank_char bs →
    word w →
    (∀ c, head rest = Some c → is_blank_char c) →
    words_of rest ws →
    words_of (bs ++ w ++ rest) (w :: ws).

Definition no_linebreak (s : str) : Prop :=
  Forall (fun c => is_linebreak c = false) s.

Definition naive_stamp (N : naive_runtime) : str :=
  lit "BUILD_TS:" ++ utcnow_isoformat N ++ lit "Z".

(** * Properties *)

(** ** The model on examples *)

Example clean_text_ex :
  clean_text (lit "  Hello   World ") = lit "Hello World".
Proof. vm_compute. reflexivity. Qed.

Example dedupe_ex :
  dedupe_keep_order [lit "a"; lit "b"; lit "a"; lit "c"; lit "b"]
  = [lit "a"; lit "b"; lit "c"].
Proof. vm_compute. reflexivity. Qed.

Example chunks_ex : length <$> chunks (repeat 97%N 1700) = [800; 800; 100].
Proof. vm_compute. reflexivity. Qed.

Example match_placeholder_ex :
  match_placeholder (lit "${ENV:API_KEY}/x") = Some (lit "API_KEY", lit "/x").
Proof. vm_compute. reflexivity. Qed.

Example extract_priority_ex :
  extract_apify_text_fields
    [(lit "title", JStr (lit " A  title ")); (lit "caption", JStr (lit "cap"))]
  = lit "cap A title".
Proof. vm_compute. reflexivity. Qed.

Example splitlines_ex :
  splitlines (List.map N.of_nat [97; 13; 10; 10; 98; 10])
  = [[97%N]; []; [98%N]].
Proof. vm_compute. reflexivity. Qed.

(** ** Whitespace normalisation *)

Lemma split_from_space c cur s :
  isspace c = true → split_from cur (c :: s) = flush cur ++ split s.
Proof. intros Hc. simpl. rewrite Hc. destruct cur; reflexivity. Qed.

Lemma split_from_word w cur s :
  Forall nonspace w → split_from cur (w ++ s) = split_from (cur ++ w) s.
Proof.
  intros Hw. revert cur. induction Hw as [|c w Hc _ IH]; intros cur.
  - by rewrite app_nil_r.
  - simpl. rewrite Hc, IH, <- app_assoc. reflexivity.
Qed.

Lemma split_from_app_space c cur a b :
  isspace c = true →
  split_from cur (a ++ c :: b) = split_from cur a ++ split b.
Proof.
  intros Hc. revert cur. induction a as [|x a IH]; intros cur.
  - rewrite app_nil_l, split_from_space by done. by destruct cur.
  - simpl. destruct (isspace x).
    + destruct cur; simpl; by rewrite IH.
    + apply IH.
Qed.

Lemma split_from_spaces cur ws :
  Forall (fun c => isspace c = true) ws → split_from cur ws = flush cur.
Proof.
  intros Hws. revert cur. induction Hws as [|c ws Hc _ IH]; intros cur.
  - reflexivity.
  - rewrite split_from_space by done. unfold split. rewrite IH. simpl.
    by rewrite app_nil_r.
Qed.

Lemma split_from_app_spaces cur a ws :
  Forall (fun c => isspace c = true) ws →
  split_from cur (a ++ ws) = split_from cur a.
Proof.
  intros Hws. revert cur. induction a as [|x a IH]; intros cur.
  - simpl. rewrite split_from_spaces by done. by destruct cur.
  - simpl. destruct (isspace x); [destruct cur|]; by rewrite IH.
Qed.

Lemma split_from_words cur s :
  Forall nonspace cur → Forall word (split_from cur s).
Proof.
  revert cur. induction s as [|c s IH]; intros cur Hcur.
  - destruct cur; constructor; [|constructor]. split; [done|exact Hcur].
  - simpl. destruct (isspace c) eqn:Hc.
    + destruct cur.
      * by apply IH.
      * constructor; [split; [done|exact Hcur]|]. by apply IH.
    + apply IH. apply Forall_app. split; [done|]. by constructor.
Qed.

Lemma split_words s : Forall word (split s).
Proof. apply split_from_words. constructor. Qed.

Lemma split_join_words ws : Forall word ws → split (join [SPACE] ws) = ws.
Proof.
  induction 1 as [|w ws [Hne Hw] Hws IH]; [reflexivity|].
  unfold split. destruct ws as [|w' ws].
  - simpl. pose proof (split_from_word w [] [] Hw) as E.
    rewrite app_nil_r in E. rewrite E. simpl. by destruct w.
  - change (join [SPACE] (w :: w' :: ws))
      with (w ++ [SPACE] ++ join [SPACE] (w' :: ws)).
    rewrite split_from_word by done.
    change ([SPACE] ++ join [SPACE] (w' :: ws))
      with (SPACE :: join [SPACE] (w' :: ws)).
    rewrite split_from_space by reflexivity. rewrite IH.
    by destruct w.
Qed.

Lemma split_join parts :
  split (join [SPACE] parts) = concat (split <$> parts).
Proof.
  induction parts as [|p [|q parts] IH]; [reflexivity| |].
  - simpl. by rewrite app_nil_r.
  - change (join [SPACE] (p :: q :: parts))
      with (p ++ SPACE :: join [SPACE] (q :: parts)).
    unfold split at 1. rewrite split_from_app_space by reflexivity.
    rewrite IH. reflexivity.
Qed.

Lemma lstrip_decomp s :
  ∃ ws, Forall (fun c => isspace c = true) ws ∧ s = ws ++ lstrip s.
Proof.
  induction s as [|c s (ws & Hws & Hs)].
  - by exists [].
  - simpl. destruct (isspace c) eqn:Hc.
    + exists (c :: ws). split; [by constructor|]. simpl. by f_equal.
    + by exists [].
Qed.

Lemma rstrip_decomp s :
  ∃ ws, Forall (fun c => isspace c = true) ws ∧ s = rstrip s ++ ws.
Proof.
  destruct (lstrip_decomp (rev s)) as (ws & Hws & Hs).
  exists (rev ws). split.
  - by apply Forall_rev.
  - unfold rstrip. rewrite <- rev_app_distr, <- Hs. by rewrite rev_involutive.
Qed.

Lemma split_lstrip s : split (lstrip s) = split s.
Proof.
  induction s as [|c s IH]; [reflexivity|].
  simpl. destruct (isspace c) eqn:Hc; [|reflexivity].
  rewrite IH. unfold split. simpl. by rewrite Hc.
Qed.

Lemma split_rstrip s : split (rstrip s) = split s.
Proof.
  destruct (rstrip_decomp s) as (ws & Hws & Hs).
  rewrite Hs at 2. unfold split. by rewrite split_from_app_spaces.
Qed.

Lemma split_strip s : split (strip s) = split s.
Proof. unfold strip. by rewrite split_rstrip, split_lstrip. Qed.

Lemma lstrip_nonspace c s : isspace c = false → lstrip (c :: s) = c :: s.
Proof. intros Hc. simpl. by rewrite Hc. Qed.

Lemma strip_trimmed s : trimmed s → strip s = s.
Proof.
  intros [Hh Hl]. unfold strip.
  assert (lstrip s = s) as ->.
  { destruct s as [|c s]; [done|]. apply lstrip_nonspace. by apply Hh. }
  unfold rstrip. destruct (rev s) as [|c r] eqn:Hr.
  - rewrite <- (rev_involutive s), Hr. reflexivity.
  - rewrite lstrip_nonspace, <- Hr, rev_involutive; [done|].
    apply Hl. rewrite <- (rev_involutive s), Hr. simpl. by rewrite last_snoc.
Qed.

Lemma join_words_trimmed ws : Forall word ws → trimmed (join [SPACE] ws).
Proof.
  induction 1 as [|w ws [Hne Hw] Hws [IHh IHl]]; [by split|].
  destruct ws as [|w' ws].
  - simpl. split; intros c Hc.
    + destruct w as [|x w]; [done|]. simpl in Hc. injection Hc as <-.
      by apply Forall_inv in Hw.
    + rewrite Forall_forall in Hw. apply Hw.
      apply last_Some in Hc as [l' ->]. set_solver.
  - change (join [SPACE] (w :: w' :: ws))
      with (w ++ [SPACE] ++ join [SPACE] (w' :: ws)).
    split; intros c Hc.
    + destruct w as [|x w]; [done|]. simpl in Hc. injection Hc as <-.
      by apply Forall_inv in Hw.
    + apply IHl. rewrite app_assoc in Hc.
      destruct (join [SPACE] (w' :: ws)) as [|y l] eqn:Hj.
      * exfalso. apply Forall_inv in Hws as [Hne' _].
        destruct ws; simpl in Hj; [done|]. by destruct w'.
      * rewrite last_app_cons in Hc. exact Hc.
Qed.

(** [clean_text] is the words of the text joined by single spaces; the
    final [strip] has nothing left to remove. *)
Lemma clean_text_join s : clean_text s = join [SPACE] (split s).
Proof.
  unfold clean_text. apply strip_trimmed, join_words_trimmed, split_words.
Qed.

Lemma clean_text_idem s : clean_text (clean_text s) = clean_text s.
Proof.
  rewrite !clean_text_join. by rewrite split_join_words by apply split_words.
Qed.

Lemma join_words_chars ws c :
  Forall word ws → c ∈ join [SPACE] ws → c = SPACE ∨ nonspace c.
Proof.
  induction 1 as [|w ws [Hne Hw] Hws IH]; [by intros ?%elem_of_nil|].
  rewrite Forall_forall in Hw.
  destruct ws as [|w' ws].
  - simpl. intros Hc. right. by apply Hw.
  - change (join [SPACE] (w :: w' :: ws))
      with (w ++ [SPACE] ++ join [SPACE] (w' :: ws)).
    rewrite !elem_of_app, list_elem_of_singleton.
    intros [Hc|[Hc|Hc]]; [right; by apply Hw|by left|by apply IH].
Qed.

(** The only whitespace [clean_text] leaves is the space character. *)
Lemma clean_text_chars s c : c ∈ clean_text s → c = SPACE ∨ nonspace c.
Proof. rewrite clean_text_join. apply join_words_chars, split_words. Qed.

Lemma clean_text_no_newline s : NEWLINE ∉ clean_text s.
Proof. intros [H|H]%clean_text_chars; discriminate H. Qed.

Lemma clean_text_nil_iff s : clean_text s = [] ↔ split s = [].
Proof.
  rewrite clean_text_join. split; [|by intros ->].
  pose proof (split_words s) as Hw. destruct (split s) as [|w [|w' ws]]; [done| |].
  - simpl. intros ->. by apply Forall_inv in Hw as [? _].
  - apply Forall_inv in Hw as [Hne _]. by destruct w.
Qed.

(** ** Chunking *)

Lemma concat_windows (c : nat) (t : str) (a n : nat) :
  concat ((fun i => slice t i (i + c)) <$> ((fun k => k * c) <$> seq a n))
  = take (n * c) (drop (a * c) t).
Proof.
  revert a. induction n as [|n IH]; intros a; [reflexivity|].
  simpl. rewrite IH. unfold slice.
  replace (a * c + c - a * c) with c by lia.
  replace (S a * c) with (a * c + c) by lia.
  rewrite <- drop_drop. apply take_take_drop.
Qed.

Lemma range_step_covers (stop step : nat) :
  0 < step → stop ≤ (stop + step - 1) `div` step * step.
Proof.
  intros Hpos.
  pose proof (Nat.div_mod_eq (stop + step - 1) step) as E.
  pose proof (Nat.mod_upper_bound (stop + step - 1) step) as B.
  lia.
Qed.

Lemma chunks_concat (text : str) : concat (chunks text) = text.
Proof.
  unfold chunks, range_step. rewrite concat_windows. simpl drop.
  apply take_ge. apply range_step_covers. unfold CHUNK. lia.
Qed.

Lemma chunks_length (text : str) :
  Forall (fun chunk => length chunk ≤ CHUNK) (chunks text).
Proof.
  unfold chunks. apply Forall_fmap, Forall_forall. intros i _. simpl.
  unfold slice. rewrite length_take. lia.
Qed.

(** ** Deduplication *)

Lemma dedupe_loop_out seen out items :
  dedupe_loop seen out items = out ++ dedupe_loop seen [] items.
Proof.
  revert seen out. induction items as [|it items IH]; intros seen out; simpl.
  - by rewrite app_nil_r.
  - case_decide; [apply IH|].
    rewrite (IH _ (out ++ [it])), (IH _ ([] ++ [it])).
    by rewrite <- app_assoc.
Qed.

Lemma dedupe_loop_cons seen it items :
  dedupe_loop seen [] (it :: items)
  = if decide (it ∈ seen) then dedupe_loop seen [] items
    else it :: dedupe_loop ({[it]} ∪ seen) [] items.
Proof. simpl. case_decide; [done|]. by rewrite dedupe_loop_out. Qed.

Lemma dedupe_loop_app seen l1 l2 :
  dedupe_loop seen [] (l1 ++ l2)
  = dedupe_loop seen [] l1 ++ dedupe_loop (list_to_set l1 ∪ seen) [] l2.
Proof.
  revert seen. induction l1 as [|x l1 IH]; intros seen.
  - simpl. by rewrite (left_id_L ∅ (∪)).
  - rewrite <- app_comm_cons, !dedupe_loop_cons. case_decide as Hx.
    + rewrite IH. do 2 f_equal. set_solver.
    + rewrite IH. simpl. do 3 f_equal. set_solver.
Qed.

Lemma elem_of_dedupe_loop seen items x :
  x ∈ dedupe_loop seen [] items ↔ x ∈ items ∧ x ∉ seen.
Proof.
  revert seen. induction items as [|it items IH]; intros seen.
  - simpl. set_solver.
  - rewrite dedupe_loop_cons. case_decide as Hit.
    + rewrite IH. set_solver.
    + rewrite elem_of_cons, IH. destruct (decide (x = it)); set_solver.
Qed.

Lemma NoDup_dedupe_loop seen items : NoDup (dedupe_loop seen [] items).
Proof.
  revert seen. induction items as [|it items IH]; intros seen.
  - constructor.
  - rewrite dedupe_loop_cons. case_decide; [apply IH|].
    constructor; [|apply IH]. rewrite elem_of_dedupe_loop. set_solver.
Qed.

Lemma dedupe_loop_NoDup_id seen items :
  NoDup items → (∀ x, x ∈ items → x ∉ seen) →
  dedupe_loop seen [] items = items.
Proof.
  intros Hnd. revert seen. induction Hnd as [|it items Hit Hnd IH]; intros seen Hs.
  - reflexivity.
  - rewrite dedupe_loop_cons. rewrite decide_False by (apply Hs; set_solver).
    f_equal. apply IH. intros x Hx. specialize (Hs x). set_solver.
Qed.

Lemma dedupe_keep_order_snoc items x :
  dedupe_keep_order (items ++ [x])
  = if decide (x ∈ items) then dedupe_keep_order items
    else dedupe_keep_order items ++ [x].
Proof.
  unfold dedupe_keep_order. rewrite dedupe_loop_app, dedupe_loop_cons.
  simpl. rewrite (right_id_L ∅ (∪)).
  destruct (decide (x ∈ items)) as [Hx|Hx].
  - rewrite decide_True by set_solver. by rewrite app_nil_r.
  - by rewrite decide_False by set_solver.
Qed.

Lemma index_of_Some x l i :
  index_of x l = Some i ↔
  ∃ l1 l2, l = l1 ++ x :: l2 ∧ (x ∉ l1) ∧ length l1 = i.
Proof.
  revert i. induction l as [|y l IH]; intros i; simpl.
  - split; [done|]. intros (l1 & l2 & E & _). by destruct l1.
  - case_decide as Hy.
    + subst y. split.
      * intros [= <-]. exists [], l. set_solver.
      * intros (l1 & l2 & E & Hni & <-). destruct l1 as [|z l1]; [done|].
        injection E as -> _. set_solver.
    + split.
      * destruct (index_of x l) as [j|] eqn:Hj; [|done]. intros [= <-].
        destruct (proj1 (IH j) eq_refl) as (l1 & l2 & -> & Hni & <-).
        exists (y :: l1), l2. set_solver.
      * intros (l1 & l2 & E & Hni & <-). destruct l1 as [|z l1].
        { injection E as -> _. done. }
        injection E as -> ->.
        rewrite (proj2 (IH (length l1))); [done|].
        exists l1, l2. set_solver.
Qed.

Lemma index_of_middle x l1 l2 :
  x ∉ l1 → index_of x (l1 ++ x :: l2) = Some (length l1).
Proof. intros Hx. apply index_of_Some. by exists l1, l2. Qed.

Lemma dedupe_keep_order_order items A B i j :
  index_of A items = Some i → index_of B items = Some j → i < j →
  ∃ i' j', index_of A (dedupe_keep_order items) = Some i'
           ∧ index_of B (dedupe_keep_order items) = Some j' ∧ i' < j'.
Proof.
  intros (l1 & l2 & E1 & HA & Hi)%index_of_Some
         (m1 & m2 & E2 & HB & Hj)%index_of_Some Hij.
  assert (∀ k y, k < j → items !! k = Some y → y ≠ B) as Hbefore.
  { intros k y Hk Hy ->. apply HB. rewrite E2, lookup_app_l in Hy by lia.
    by eapply list_elem_of_lookup_2. }
  assert (A ≠ B) as Hne.
  { apply (Hbefore i); [done|]. rewrite E1, <- Hi. apply list_lookup_middle; done. }
  assert (B ∉ l1) as HB1.
  { intros (k & Hk)%list_elem_of_lookup_1.
    apply (Hbefore k B); [|rewrite E1; by apply lookup_app_l_Some|done].
    apply lookup_lt_Some in Hk. lia. }
  assert (B ∈ l2) as HB2.
  { assert (B ∈ items) as HBi by (rewrite E2; set_solver).
    rewrite E1 in HBi. set_solver. }
  pose proof (NoDup_dedupe_loop ∅ items) as Hnd.
  unfold dedupe_keep_order. rewrite E1 in Hnd |- *.
  rewrite dedupe_loop_app, dedupe_loop_cons in Hnd |- *.
  rewrite decide_False in Hnd |- * by set_solver.
  set (D1 := dedupe_loop ∅ [] l1) in *.
  set (S2 := {[A]} ∪ (list_to_set l1 ∪ ∅)) in *.
  assert (B ∈ dedupe_loop S2 [] l2) as HBd.
  { apply elem_of_dedupe_loop. split; [done|]. subst S2. set_solver. }
  apply list_elem_of_split in HBd as (o2 & o3 & Ho). rewrite Ho in Hnd |- *.
  apply NoDup_app in Hnd as (_ & Hd1 & Hnd).
  apply NoDup_cons in Hnd as (HAo & Hnd).
  apply NoDup_app in Hnd as (_ & Hd2 & _).
  exists (length D1), (length (D1 ++ A :: o2)). split_and!.
  - apply index_of_middle. intros HAD. apply (Hd1 A HAD). set_solver.
  - replace (D1 ++ A :: o2 ++ B :: o3) with ((D1 ++ A :: o2) ++ B :: o3)
      by by rewrite <- app_assoc.
    apply index_of_middle. intros [HBD|HBo]%elem_of_app.
    + apply (Hd1 B HBD). set_solver.
    + apply elem_of_cons in HBo as [->|HBo]; [done|].
      apply (Hd2 B HBo). set_solver.
  - rewrite length_app. simpl. lia.
Qed.

(** C6. [dedupe_keep_order] keeps every distinct line exactly once, and in
    the order of the first occurrences: when the first occurrence of [A] is
    before the first occurrence of [B] in the input, [A] is before [B] in
    the output. *)
Theorem dedupe_keep_order_first_occurrences (items : list str) :
  NoDup (dedupe_keep_order items)
  ∧ (∀ x, x ∈ dedupe_keep_order items ↔ x ∈ items)
  ∧ (∀ A B i j,
       index_of A items = Some i → index_of B items = Some j → i < j →
       ∃ i' j', index_of A (dedupe_keep_order items) = Some i'
                ∧ index_of B (dedupe_keep_order items) = Some j'
                ∧ i' < j').
Proof.
  split_and!.
  - apply NoDup_dedupe_loop.
  - intros x. unfold dedupe_keep_order. rewrite elem_of_dedupe_loop. set_solver.
  - apply dedupe_keep_order_order.
Qed.

Lemma dedupe_keep_order_first_occurrences_witness :
  let items := [lit "b"; lit "a"; lit "b"; lit "c"; lit "a"] in
  dedupe_keep_order items = [lit "b"; lit "a"; lit "c"]
  ∧ ∃ i' j', index_of (lit "a") (dedupe_keep_order items) = Some i'
             ∧ index_of (lit "c") (dedupe_keep_order items) = Some j'
             ∧ i' < j'.
Proof.
  split; [vm_compute; reflexivity|].
  apply (proj2 (proj2 (dedupe_keep_order_first_occurrences _)) _ _ 1 3);
    [vm_compute; reflexivity | vm_compute; reflexivity | lia].
Defined.

(** ** The aggregator *)

Lemma split_from_nil cur s :
  split_from cur s = [] → cur = [] ∧ Forall (fun c => isspace c = true) s.
Proof.
  revert cur. induction s as [|c s IH]; intros cur; simpl.
  - by destruct cur.
  - destruct (isspace c) eqn:Hc.
    + destruct cur; [|done]. intros [_ H]%IH. split; [done|by constructor].
    + intros [H _]%IH. by destruct cur.
Qed.

Lemma lstrip_spaces s : Forall (fun c => isspace c = true) s → lstrip s = [].
Proof. induction 1 as [|c s Hc _ IH]; simpl; [done|by rewrite Hc]. Qed.

Lemma strip_truthy_clean x :
  truthy_str (strip x) = true → clean_text x ≠ [].
Proof.
  intros Hx Hc. apply clean_text_nil_iff, split_from_nil in Hc as [_ Hs].
  unfold strip in Hx. by rewrite lstrip_spaces in Hx.
Qed.

Lemma normalize_lines_fixed lines :
  Forall (fun x => clean_text x = x) lines → Forall (fun x => x ≠ []) lines →
  normalize_lines lines = lines.
Proof.
  unfold normalize_lines.
  induction 1 as [|x lines Hx _ IH]; intros Hne; [reflexivity|].
  apply Forall_cons in Hne as [Hxne Hne]. simpl.
  assert (strip x = x) as Hs.
  { rewrite <- Hx. apply strip_trimmed. rewrite clean_text_join.
    apply join_words_trimmed, split_words. }
  rewrite Hs. destruct x as [|c x]; [done|]. simpl.
  rewrite Hx. f_equal. by apply IH.
Qed.

Lemma dedupe_keep_order_NoDup_id lines :
  NoDup lines → dedupe_keep_order lines = lines.
Proof. intros H. apply dedupe_loop_NoDup_id; [done|set_solver]. Qed.

(** C5. On a list of lines that is already normalised, has no empty line
    and no duplicate, the aggregator's transformation (normalise, drop the
    empty lines, deduplicate) changes nothing. *)
Theorem aggregate_idempotent (lines : list str) :
  Forall (fun x => clean_text x = x) lines →
  Forall (fun x => x ≠ []) lines →
  NoDup lines →
  aggregate lines = lines.
Proof.
  intros Hclean Hne Hnd. unfold aggregate.
  rewrite normalize_lines_fixed by done.
  by apply dedupe_keep_order_NoDup_id.
Qed.

Lemma aggregate_idempotent_witness :
  let lines := [lit "SRC:WEB u | Hello World"; lit "SRC:WEB u | bye"] in
  aggregate lines = lines.
Proof.
  apply aggregate_idempotent.
  - repeat constructor; vm_compute; reflexivity.
  - repeat constructor; discriminate.
  - apply (bool_decide_unpack (NoDup _)). vm_compute. exact I.
Defined.

Lemma normalize_lines_spec lines :
  Forall (fun x => clean_text x = x ∧ x ≠ []) (normalize_lines lines).
Proof.
  unfold normalize_lines. induction lines as [|x lines IH]; [constructor|].
  simpl. destruct (truthy_str x && truthy_str (strip x)) eqn:Hx; [|exact IH].
  apply andb_prop in Hx as [_ Hx]. constructor; [|exact IH].
  split; [apply clean_text_idem|by apply strip_truthy_clean].
Qed.

(** The aggregator applied to its own output changes nothing. *)
Lemma aggregate_aggregate lines : aggregate (aggregate lines) = aggregate lines.
Proof.
  assert (Forall (fun x => clean_text x = x ∧ x ≠ []) (aggregate lines)) as H.
  { pose proof (normalize_lines_spec lines) as Hn. rewrite Forall_forall in Hn.
    apply Forall_forall. intros x Hx. apply Hn.
    unfold aggregate, dedupe_keep_order in Hx.
    by apply elem_of_dedupe_loop in Hx as [Hx _]. }
  apply Forall_and in H as [H1 H2]. unfold aggregate at 1.
  rewrite normalize_lines_fixed by done.
  apply dedupe_keep_order_NoDup_id, NoDup_dedupe_loop.
Qed.

(** ** Text and source of an actor record *)

Lemma fold_priority_step item keys acc :
  fold_left (priority_step item) keys acc
  = acc ++ (strip <$> priority_values nonblank item keys).
Proof.
  revert acc. induction keys as [|key keys IH]; intros acc; simpl.
  - by rewrite app_nil_r.
  - rewrite IH. unfold priority_step, nonblank.
    destruct (dict_get item key) as [| | | |val| |]; try reflexivity.
    destruct (truthy_str (strip val)); [|reflexivity].
    simpl. by rewrite <- app_assoc.
Qed.

Lemma fold_fallback_step item acc :
  fold_left fallback_step item acc = acc ++ long_strings item.
Proof.
  revert acc. induction item as [|[k v] item IH]; intros acc; simpl.
  - by rewrite app_nil_r.
  - rewrite IH. unfold fallback_step, long_strings. simpl.
    destruct v as [| | | |s| |]; try reflexivity.
    destruct (20 <? length s); [|reflexivity].
    simpl. by rewrite <- app_assoc.
Qed.

Lemma clean_text_join_strip parts :
  clean_text (join [SPACE] (strip <$> parts)) = clean_text (join [SPACE] parts).
Proof.
  rewrite !clean_text_join, !split_join. do 2 f_equal.
  rewrite <- list_fmap_compose. apply list_fmap_ext. intros _ p _. simpl.
  apply split_strip.
Qed.

Lemma extract_apify_text_fields_spec item :
  extract_apify_text_fields item = text_fields_spec nonblank item.
Proof.
  unfold extract_apify_text_fields, text_fields_spec.
  rewrite fold_priority_step, app_nil_l.
  destruct (priority_values nonblank item PRIORITY_KEYS) as [|v vs].
  - rewrite fmap_nil, fold_fallback_step, app_nil_l.
    destruct (long_strings item); reflexivity.
  - change (clean_text (join [SPACE] (strip <$> v :: vs))
            = clean_text (join [SPACE] (v :: vs))).
    apply clean_text_join_strip.
Qed.

(** C7, as the code has it.  The text of a record is made of the values
    under [caption], [text], [summary], [title], [description], [alt] and
    [content], in that order, that are strings with a character that is not
    whitespace; if there is none, of every string value longer than 20
    characters; joined by single spaces and normalised.  A record whose text
    is empty adds no line. *)
Theorem extract_apify_text_fields_nonblank
    (R : runtime) (actor : json) (item : list (str * json)) :
  extract_apify_text_fields item = text_fields_spec nonblank item
  ∧ (extract_apify_text_fields item = [] → apify_item_lines R actor item = []).
Proof.
  split; [apply extract_apify_text_fields_spec|].
  intros H. unfold apify_item_lines. by rewrite H.
Qed.

(** C8, as the code has it.  The source of a record is the first of its
    [url], [link] and [permalink] values that is true (present, and not
    null, empty, zero or false), else the actor; every line of the record
    is labelled with it. *)
Theorem apify_source_first_truthy
    (R : runtime) (actor : json) (it : list (str * json)) :
  apify_source it actor = first_truthy it actor
  ∧ ∀ line, line ∈ apify_item_lines R actor it →
      ∃ chunk, line = lit "SRC:APIFY " ++ fmt R (first_truthy it actor)
                        ++ lit " | " ++ chunk.
Proof.
  assert (apify_source it actor = first_truthy it actor) as E.
  { unfold apify_source, first_truthy, py_or. simpl.
    destruct (truthy (dict_get it (lit "url"))); [done|].
    destruct (truthy (dict_get it (lit "link"))); [done|].
    destruct (truthy (dict_get it (lit "permalink"))); done. }
  split; [exact E|].
  intros line. unfold apify_item_lines. rewrite E.
  destruct (truthy_str _); [|by intros ?%elem_of_nil].
  intros (chunk & -> & _)%list_elem_of_fmap. by exists chunk.
Qed.

(** ** Placeholder resolution *)

Lemma json_ind_nested (P : json → Prop) :
  P JNull → (∀ b, P (JBool b)) → (∀ n, P (JInt n)) → (∀ f, P (JFloat f)) →
  (∀ s, P (JStr s)) →
  (∀ xs, Forall P xs → P (JList xs)) →
  (∀ kvs, Forall (fun kv => P kv.2) kvs → P (JDict kvs)) →
  ∀ v, P v.
Proof.
  intros HN HB HI HF HS HL HD. fix IH 1. intros [|b|n|f|s|xs|kvs].
  - exact HN.
  - apply HB.
  - apply HI.
  - apply HF.
  - apply HS.
  - apply HL. revert xs. fix IHxs 1. intros [|x xs]; constructor.
    + apply IH.
    + apply IHxs.
  - apply HD. revert kvs. fix IHkvs 1. intros [|[k v] kvs]; constructor.
    + apply IH.
    + apply IHkvs.
Qed.

Lemma dict_set_fresh d key v :
  key ∉ dict_keys d → dict_set d key v = d ++ [(key, v)].
Proof.
  induction d as [|[k w] d IH]; intros Hk; simpl; [done|].
  unfold dict_keys in Hk. simpl in Hk.
  rewrite decide_False by set_solver. f_equal. apply IH.
  unfold dict_keys. set_solver.
Qed.

Lemma fold_dict_set_NoDup items acc :
  NoDup (dict_keys (acc ++ items)) →
  fold_left (fun d kv => dict_set d kv.1 kv.2) items acc = acc ++ items.
Proof.
  revert acc. induction items as [|[k v] items IH]; intros acc Hnd; simpl.
  - by rewrite app_nil_r.
  - assert (k ∉ dict_keys acc) as Hk.
    { unfold dict_keys in *. rewrite fmap_app in Hnd.
      apply NoDup_app in Hnd as (_ & Hd & _). intros Hin.
      apply (Hd k Hin). simpl. set_solver. }
    rewrite dict_set_fresh by done.
    rewrite IH; rewrite <- app_assoc; done.
Qed.

Lemma dict_of_items_NoDup items :
  NoDup (dict_keys items) → dict_of_items items = items.
Proof. intros H. unfold dict_of_items. by rewrite fold_dict_set_NoDup. Qed.

Lemma resolve_dict_keys R (kvs : list (str * json)) :
  dict_keys ((fun kv => let '(k, v) := kv in (k, resolve_env_placeholders R v))
               <$> kvs)
  = dict_keys kvs.
Proof.
  unfold dict_keys. rewrite <- list_fmap_compose.
  apply list_fmap_ext. by intros _ [k v] _.
Qed.

Lemma resolve_env_placeholders_dict R kvs :
  NoDup (dict_keys kvs) →
  resolve_env_placeholders R (JDict kvs)
  = JDict ((fun kv => let '(k, v) := kv in (k, resolve_env_placeholders R v))
             <$> kvs).
Proof.
  intros Hnd. simpl. f_equal. apply dict_of_items_NoDup.
  by rewrite resolve_dict_keys.
Qed.

Lemma wf_json_dict kvs :
  wf_json (JDict kvs) = true ↔
  NoDup (dict_keys kvs) ∧ Forall (fun kv => wf_json kv.2 = true) kvs.
Proof.
  simpl. rewrite andb_true_iff, bool_decide_eq_true, forallb_forall.
  rewrite Forall_forall. unfold dict_keys.
  split; intros [H1 H2]; (split; [done|]).
  - intros [k v] Hkv. apply (H2 (k, v)). by apply list_elem_of_In.
  - intros [k v] Hkv. apply (H2 (k, v)). by apply list_elem_of_In.
Qed.

Lemma wf_json_list xs :
  wf_json (JList xs) = true ↔ Forall (fun x => wf_json x = true) xs.
Proof.
  simpl. rewrite forallb_forall, Forall_forall.
  split; intros H x Hx; apply H; by apply list_elem_of_In.
Qed.

Lemma resolve_env_placeholders_skeleton R v :
  wf_json v = true →
  skeleton (resolve_env_placeholders R v) = skeleton v
  ∧ wf_json (resolve_env_placeholders R v) = true.
Proof.
  induction v as [|b|n|f|s|xs IH|kvs IH] using json_ind_nested;
    intros Hwf; try done.
  - apply wf_json_list in Hwf.
    cut (skeleton <$> (resolve_env_placeholders R <$> xs) = skeleton <$> xs
         ∧ Forall (fun x => wf_json x = true) (resolve_env_placeholders R <$> xs)).
    { intros [E W]. split; [simpl; by rewrite E|by apply wf_json_list]. }
    induction IH as [|x xs Hx _ IHxs]; [by split|].
    apply Forall_cons in Hwf as [Hwx Hwf].
    destruct (Hx Hwx) as [E1 W1]. destruct (IHxs Hwf) as [E2 W2].
    split; [rewrite !fmap_cons; by rewrite E1, E2|by constructor].
  - apply wf_json_dict in Hwf as [Hnd Hwf].
    rewrite resolve_env_placeholders_dict by done.
    set (g := fun kv : list N * json =>
                let '(k, v) := kv in (k, resolve_env_placeholders R v)).
    cut ((fun kv => let '(k, w) := kv in (k, skeleton w)) <$> (g <$> kvs)
         = (fun kv => let '(k, w) := kv in (k, skeleton w)) <$> kvs
         ∧ Forall (fun kv => wf_json kv.2 = true) (g <$> kvs)).
    { intros [E W]. split; [simpl; by rewrite E|].
      apply wf_json_dict. split; [|done]. subst g.
      by rewrite resolve_dict_keys. }
    clear Hnd. induction IH as [|[k v] kvs Hv _ IHkvs]; [by split|].
    apply Forall_cons in Hwf as [Hwv Hwf]. simpl in Hv, Hwv.
    destruct (Hv Hwv) as [E1 W1]. destruct (IHkvs Hwf) as [E2 W2].
    split; [rewrite !fmap_cons; simpl; by rewrite E1, E2|by constructor].
Qed.

(** C10. Resolving the placeholders of a value keeps its structure: the
    keys of every dictionary and their order, the length and order of every
    list, and every leaf that is not a string; only strings change. *)
Theorem resolve_env_placeholders_structure (R : runtime) (v : json) :
  wf_json v = true →
  skeleton (resolve_env_placeholders R v) = skeleton v
  ∧ match v with
    | JDict kvs =>
        ∃ kvs', resolve_env_placeholders R v = JDict kvs'
                ∧ dict_keys kvs' = dict_keys kvs
    | JList xs =>
        ∃ xs', resolve_env_placeholders R v = JList xs'
               ∧ length xs' = length xs
    | JStr s => ∃ s', resolve_env_placeholders R v = JStr s'
    | _ => resolve_env_placeholders R v = v
    end.
Proof.
  intros Hwf. split; [by apply resolve_env_placeholders_skeleton|].
  destruct v as [|b|n|f|s|xs|kvs]; try reflexivity.
  - by eexists.
  - eexists. split; [reflexivity|]. by rewrite length_fmap.
  - apply wf_json_dict in Hwf as [Hnd _].
    eexists. split; [by apply resolve_env_placeholders_dict|].
    apply resolve_dict_keys.
Qed.

(** The fuel of [re_sub_env] is enough: a match consumes at least one
    character. *)
Lemma strip_prefix_length p s r :
  strip_prefix p s = Some r → length s = length p + length r.
Proof.
  revert s. induction p as [|a p IH]; intros [|b s]; simpl; try done.
  - by intros [= <-].
  - by intros [= <-].
  - destruct (a =? b)%N; [|done]. intros H%IH. lia.
Qed.

Lemma span_ident_length s w r :
  span_ident s = (w, r) → length s = length w + length r.
Proof.
  revert w r. induction s as [|c s IH]; intros w r; simpl.
  - by intros [= <- <-].
  - destruct (is_ident_char c).
    + destruct (span_ident s) as [w' r']. intros [= <- <-].
      specialize (IH _ _ eq_refl). simpl. lia.
    + by intros [= <- <-].
Qed.

Lemma match_placeholder_length s var rest :
  match_placeholder s = Some (var, rest) → length rest < length s.
Proof.
  unfold match_placeholder.
  destruct (strip_prefix _ s) as [[|c s1]|] eqn:Hp; try done.
  apply strip_prefix_length in Hp.
  destruct (is_ident_start c); [|done].
  destruct (span_ident s1) as [w r] eqn:Hs. apply span_ident_length in Hs.
  destruct r as [|b r]; [done|]. intros H.
  assert (b = 125%N) as ->.
  { destruct b as [|p]; [done|].
    do 7 (destruct p as [p|p|]; try done). }
  injection H as <- <-. simpl in *. lia.
Qed.

Lemma re_sub_env_fuel subst n m s :
  length s ≤ n → length s ≤ m → re_sub_env subst n s = re_sub_env subst m s.
Proof.
  revert m s. induction n as [|n IH]; intros [|m] [|c s]; simpl; try done;
    try lia.
  intros Hn Hm.
  destruct (match_placeholder (c :: s)) as [[var rest]|] eqn:Hp.
  - apply match_placeholder_length in Hp. simpl in Hp.
    f_equal. apply IH; lia.
  - f_equal. apply IH; lia.
Qed.

(** ** Runs *)

Lemma sent_nil w : sent w [] = w.
Proof. destruct w. unfold sent. simpl. by rewrite app_nil_r. Qed.

Lemma sent_sent w a b : sent (sent w a) b = sent w (a ++ b).
Proof. unfold sent. simpl. by rewrite app_assoc. Qed.

Section Footprint.
Context {A B : Type} (P : request → Prop).

Lemma sends_ret (a : A) : sends P (ret a).
Proof. intros w. exists []. by rewrite sent_nil. Qed.

Lemma sends_raise e : sends P (raise (A:=A) e).
Proof. intros w. exists []. by rewrite sent_nil. Qed.

Lemma sends_lift (r : exn + A) : sends P (lift r).
Proof. intros w. exists []. by rewrite sent_nil. Qed.

Lemma sends_bind (m : M A) (k : A → M B) :
  sends P m → (∀ a, sends P (k a)) → sends P (bind m k).
Proof.
  intros Hm Hk w. unfold bind. destruct (Hm w) as (n1 & E1 & F1).
  destruct (m w) as [w1 [e|a]]; simpl in E1; subst w1.
  - by exists n1.
  - destruct (Hk a (sent w n1)) as (n2 & E2 & F2).
    exists (n1 ++ n2). rewrite E2, sent_sent. split; [done|].
    by apply Forall_app.
Qed.

Lemma sends_try_except (m : M A) (h : exn → M A) :
  sends P m → (∀ e, sends P (h e)) → sends P (try_except m h).
Proof.
  intros Hm Hh w. unfold try_except. destruct (Hm w) as (n1 & E1 & F1).
  destruct (m w) as [w1 [e|a]]; simpl in E1; subst w1.
  - destruct (Hh e (sent w n1)) as (n2 & E2 & F2).
    exists (n1 ++ n2). rewrite E2, sent_sent. split; [done|].
    by apply Forall_app.
  - by exists n1.
Qed.

Lemma sends_retry_from n e (m : M A) : sends P m → sends P (retry_from n e m).
Proof.
  intros Hm. revert e. induction n as [|n IH]; intros e; simpl.
  - apply sends_raise.
  - apply sends_try_except; [done|]. intros e'. apply IH.
Qed.

Lemma total_try_except (m : M A) (h : exn → M A) :
  (∀ e, total (h e)) → total (try_except m h).
Proof.
  intros Hh w. unfold try_except. destruct (m w) as [w1 [e|a]].
  - apply Hh.
  - by exists a.
Qed.
End Footprint.

Lemma total_ret {A} (a : A) : total (ret a).
Proof. intros w. by exists a. Qed.

Section Runs.
Variable R : runtime.

Lemma sends_send (P : request → Prop) rq : P rq → sends P (send R rq).
Proof. intros H w. exists [rq]. split; [done|]. by constructor. Qed.

Lemma sends_raise_for_status P r : sends P (raise_for_status r).
Proof.
  unfold raise_for_status. destruct (_ && _); [apply sends_ret|apply sends_raise].
Qed.

Lemma sends_simple_fetch (P : request → Prop) url :
  P (Get url) → sends P (simple_fetch R url).
Proof.
  intros H. apply sends_retry_from. apply sends_bind; [by apply sends_send|].
  intros r. apply sends_bind; [apply sends_raise_for_status|].
  intros _. apply sends_ret.
Qed.

Lemma sends_direct_fetch_text (P : request → Prop) url :
  P (Get url) → sends P (direct_fetch_text R url).
Proof.
  intros H. apply sends_try_except; [|intros; apply sends_ret].
  apply sends_bind; [by apply sends_simple_fetch|].
  intros html. apply sends_bind; [apply sends_lift|intros; apply sends_ret].
Qed.

Lemma sends_scrape_attempt (P : request → Prop) url :
  P (FirecrawlScrape url) → sends P (scrape_attempt R url).
Proof.
  intros H. apply sends_bind; [by apply sends_send|]. intros r.
  destruct (_ =? _)%Z; [|apply sends_ret].
  apply sends_bind; [apply sends_lift|]. intros data.
  cbv zeta.
  destruct (match data with JDict _ => _ | _ => _ end) as [| | | |t| |];
    try apply sends_ret.
  destruct (truthy_str (strip t)); apply sends_ret.
Qed.

Lemma sends_crawl_attempt (P : request → Prop) url :
  P (FirecrawlCrawl url) → sends P (crawl_attempt R url).
Proof.
  intros H. apply sends_bind; [by apply sends_send|]. intros r.
  destruct (_ =? _)%Z; [|apply sends_ret].
  apply sends_bind; [apply sends_lift|]. intros data.
  destruct data; try (destruct (truthy_str _); apply sends_ret).
  destruct (py_or _ _) as [| | | | |[|it items]|]; try apply sends_ret.
  apply sends_bind; [apply sends_lift|]. intros [|p parts]; apply sends_ret.
Qed.

Lemma sends_firecrawl_scrape (P : request → Prop) url :
  P (FirecrawlScrape url) → P (FirecrawlCrawl url) →
  sends P (firecrawl_scrape R url).
Proof.
  intros H1 H2. apply sends_retry_from. unfold firecrawl_scrape_body.
  destruct (negb _); [apply sends_ret|].
  apply sends_bind.
  { unfold fc_client. destruct (ascii_encodable _);
      [apply sends_ret|apply sends_raise]. }
  intros _. apply sends_bind.
  - apply sends_try_except; [by apply sends_scrape_attempt|].
    intros; apply sends_ret.
  - intros [t|]; [apply sends_ret|].
    apply sends_try_except; [by apply sends_crawl_attempt|].
    intros; apply sends_ret.
Qed.

Lemma sends_web_fetch_text (P : request → Prop) url :
  P (FirecrawlScrape url) → P (FirecrawlCrawl url) → P (Get url) →
  sends P (web_fetch_text R url).
Proof.
  intros H1 H2 H3. apply sends_bind.
  - apply sends_try_except; [by apply sends_firecrawl_scrape|].
    intros; apply sends_ret.
  - intros t. destruct (negb _); [by apply sends_direct_fetch_text|].
    apply sends_ret.
Qed.

Lemma total_direct_fetch_text url : total (direct_fetch_text R url).
Proof. apply total_try_except. intros e. apply total_ret. Qed.

Lemma total_web_fetch_text url : total (web_fetch_text R url).
Proof.
  intros w. unfold web_fetch_text.
  change (∃ a, (bind (try_except (firecrawl_scrape R url) (fun _ => ret None))
                  (fun text => if negb (truthy_opt text)
                               then direct_fetch_text R url else ret text) w).2
               = inr a).
  unfold bind.
  destruct (total_try_except (firecrawl_scrape R url) (fun _ => ret None)
              (fun _ => total_ret None) w) as [t Ht].
  destruct (try_except _ _ w) as [w1 r]. simpl in Ht. subst r.
  destruct (negb _); [apply total_direct_fetch_text|apply total_ret].
Qed.

Lemma web_fetch_text_run url w :
  ∃ w' t, web_fetch_text R url w = (w', inr t).
Proof.
  destruct (total_web_fetch_text url w) as [t Ht].
  destruct (web_fetch_text R url w) as [w' r]. simpl in Ht. subst r.
  by exists w', t.
Qed.

Lemma web_loop_texts urls lines w :
  ∃ w' texts,
    web_texts R urls w = (w', inr texts)
    ∧ web_loop R lines urls w
      = (w', inr (lines ++ concat (zip_with (web_lines R) urls texts))).
Proof.
  revert lines w. induction urls as [|url urls IH]; intros lines w.
  - exists w, []. simpl. by rewrite app_nil_r.
  - destruct (web_fetch_text_run url w) as (w1 & t & Ht).
    destruct (IH (lines ++ web_lines R url t) w1) as (w2 & ts & Hts & Hl).
    exists w2, (t :: ts). simpl. unfold mbind, M_bind, bind.
    rewrite Ht, Hts, Hl. simpl. by rewrite <- app_assoc.
Qed.

Lemma sends_web_loop (P : request → Prop) urls lines :
  (∀ url, P (FirecrawlScrape url) ∧ P (FirecrawlCrawl url) ∧ P (Get url)) →
  sends P (web_loop R lines urls).
Proof.
  intros HP. revert lines. induction urls as [|url urls IH]; intros lines.
  - apply sends_ret.
  - apply sends_bind; [|intros t; apply IH].
    destruct (HP url) as (H1 & H2 & H3). by apply sends_web_fetch_text.
Qed.

(** A list of URLs is always processed to the end. *)
Lemma build_lines_from_web_run (P : request → Prop) urls w :
  (∀ url, P (FirecrawlScrape url) ∧ P (FirecrawlCrawl url) ∧ P (Get url)) →
  ∃ new texts,
    web_texts R urls w = (sent w new, inr texts)
    ∧ build_lines_from_web R (JList urls) w
      = (sent w new, inr (concat (zip_with (web_lines R) urls texts)))
    ∧ Forall P new.
Proof.
  intros HP. destruct (web_loop_texts urls [] w) as (w' & texts & Ht & Hl).
  destruct (sends_web_loop P urls [] HP w) as (new & Hw & Hnew).
  rewrite Hl in Hw. simpl in Hw. subst w'. by exists new, texts.
Qed.

Lemma firecrawl_scrape_disabled url w :
  firecrawl_enabled R = false → firecrawl_scrape R url w = (w, inr None).
Proof.
  intros H. unfold firecrawl_scrape, retry. simpl.
  unfold try_except, firecrawl_scrape_body. by rewrite H.
Qed.

Lemma web_fetch_text_disabled url w :
  firecrawl_enabled R = false →
  web_fetch_text R url w = direct_fetch_text R url w.
Proof.
  intros H. unfold web_fetch_text, mbind, M_bind, bind, try_except.
  by rewrite firecrawl_scrape_disabled.
Qed.

Lemma simple_fetch_first url w :
  ∃ new, (simple_fetch R url w).1 = sent w (Get url :: new)
         ∧ Forall (fun rq => rq = Get url) new.
Proof.
  unfold simple_fetch, retry.
  change (retry_from 3 TransportError (simple_fetch_body R url))
    with (try_except (simple_fetch_body R url)
            (fun e => retry_from 2 e (simple_fetch_body R url))).
  unfold try_except at 1.
  assert (∃ r, simple_fetch_body R url w = (sent w [Get url], r)) as [r Hb].
  { unfold simple_fetch_body, mbind, M_bind, bind, send. simpl.
    destruct (net R (calls w) (Get url)) as [e|r]; [by eexists|].
    destruct (sends_raise_for_status (fun _ => True) r
                {| calls := calls w ++ [Get url]; out_txt := out_txt w |})
      as (n & E & _).
    unfold raise_for_status in *.
    destruct (_ && _); simpl; by eexists. }
  rewrite Hb. destruct r as [e|html].
  - destruct (sends_retry_from (fun rq => rq = Get url) 2 e
                (simple_fetch_body R url)) with (w := sent w [Get url])
      as (n & E & F).
    { apply sends_bind; [by apply sends_send|]. intros r.
      apply sends_bind; [apply sends_raise_for_status|].
      intros _. apply sends_ret. }
    exists n. by rewrite E, sent_sent.
  - by exists [].
Qed.

Lemma direct_fetch_text_run url w :
  ∃ new t, direct_fetch_text R url w = (sent w (Get url :: new), inr t)
           ∧ Forall (fun rq => rq = Get url) new.
Proof.
  destruct (simple_fetch_first url w) as (new & E & F).
  unfold direct_fetch_text, try_except, mbind, M_bind, bind.
  destruct (simple_fetch R url w) as [w1 [e|html]]; simpl in E; subst w1.
  - by exists new, None.
  - unfold lift. destruct (extract_text_from_html R html) as [e|t].
    + by exists new, None.
    + by exists new, (Some t).
Qed.

Lemma web_loop_disabled urls lines w :
  firecrawl_enabled R = false →
  ∃ new lines',
    web_loop R lines urls w = (sent w new, inr lines')
    ∧ Forall (fun rq => ∃ url, url ∈ urls ∧ rq = Get url) new
    ∧ ∀ url, url ∈ urls → Get url ∈ new.
Proof.
  intros H. revert lines w. induction urls as [|url urls IH]; intros lines w.
  - exists [], lines. simpl. rewrite sent_nil. set_solver.
  - destruct (direct_fetch_text_run url w) as (n1 & t & Ht & F1).
    destruct (IH (lines ++ web_lines R url t) (sent w (Get url :: n1)))
      as (n2 & lines' & Hl & F2 & G2).
    exists ((Get url :: n1) ++ n2), lines'. split_and!.
    + simpl web_loop. unfold mbind, M_bind, bind.
      rewrite web_fetch_text_disabled, Ht, Hl by done. by rewrite sent_sent.
    + apply Forall_app. split.
      * constructor; [exists url; set_solver|].
        eapply Forall_impl; [exact F1|]. intros rq ->. exists url. set_solver.
      * eapply Forall_impl; [exact F2|]. intros rq (u & Hu & ->).
        exists u. set_solver.
    + intros u [->|Hu]%elem_of_cons; [set_solver|].
      apply elem_of_app. right. by apply G2.
Qed.
End Runs.

Example hello_site_main :
  main hello_site world0
  = ({| calls := [Get url_a];
        out_txt := Some (lit "SRC:WEB http://example.test/a | Hello World") |},
     inr 0%Z).
Proof. vm_compute. reflexivity. Qed.

Example actor_site_main :
  main actor_site world0
  = ({| calls := [ApifyRunSync actor_xy (JDict [])];
        out_txt := Some (lit "SRC:APIFY http://s.test | Hi there") |},
     inr 0%Z).
Proof. vm_compute. reflexivity. Qed.

Example absent_site_main :
  main absent_site world0 = ({| calls := []; out_txt := Some [] |}, inr 0%Z).
Proof. vm_compute. reflexivity. Qed.

Example resolve_search_input :
  resolve_env_placeholders region_site search_input
  = JDict [(lit "q", JStr (lit "eu-weddings "));
           (lit "tags", JList [JStr (lit "a"); JInt 3; JNull]);
           (lit "page", JDict [(lit "size", JInt 20); (lit "deep", JBool true)])].
Proof. vm_compute. reflexivity. Qed.

(** ** The web stage *)

(** C1, as the code has it.  [build_lines_from_web] adds, for every URL in
    turn, the lines of the text fetched for it; for a text that is not
    empty these are the chunks of the normalised text, each of at most 800
    characters, and the chunks of a URL concatenated in the order of the
    lines are the normalised text.  This is what the web stage hands to the
    aggregator. *)
Theorem build_lines_from_web_chunks (R : runtime) (urls : list json) (w : world) :
  ∃ w' texts,
    web_texts R urls w = (w', inr texts)
    ∧ build_lines_from_web R (JList urls) w
      = (w', inr (concat (zip_with (web_lines R) urls texts)))
    ∧ ∀ url c text,
        ∃ cs, web_lines R url (Some (c :: text)) = web_line R url <$> cs
              ∧ Forall (fun chunk => length chunk ≤ 800) cs
              ∧ concat cs = clean_text (c :: text).
Proof.
  destruct (build_lines_from_web_run R (fun _ => True) urls w)
    as (new & texts & Ht & Hl & _); [done|].
  exists (sent w new), texts. split_and!; [done|done|].
  intros url c text. exists (chunks (clean_text (c :: text))). split_and!.
  - reflexivity.
  - apply chunks_length.
  - apply chunks_concat.
Qed.

(** C1 as stated fails in the final output.  The page of [long_site]
    normalises to 799 letters, a space and a letter; the first chunk ends
    with the space, which the aggregator strips from the line, so the chunks
    of the two output lines are one character short of the text. *)
Lemma final_output_chunks_counterexample :
  ∃ w,
    web_texts long_site [url_a] world0 = (w, inr [Some long_text])
    ∧ clean_text long_text = long_text
    ∧ main_lines long_site world0
      = (w, inr [web_line long_site url_a (repeat 97%N 799);
                 web_line long_site url_a (lit "b")])
    ∧ concat [repeat 97%N 799; lit "b"] ≠ clean_text long_text.
Proof.
  exists {| calls := [Get url_a]; out_txt := None |}.
  split; [vm_compute; reflexivity|].
  split; [vm_compute; reflexivity|].
  split; [vm_compute; reflexivity|].
  intros H. apply (f_equal length) in H. vm_compute in H. discriminate H.
Qed.

(** ** Credentials *)

Lemma firecrawl_key_absent R :
  getenv R (lit "FIRECRAWL_API_KEY") = None → firecrawl_enabled R = false.
Proof.
  intros H. unfold firecrawl_enabled, FIRECRAWL_API_KEY, os_getenv. by rewrite H.
Qed.

Lemma apify_token_absent R :
  getenv R (lit "APIFY_TOKEN") = None → apify_enabled R = false.
Proof.
  intros H. unfold apify_enabled, APIFY_TOKEN, os_getenv. by rewrite H.
Qed.

(** C3. Without [FIRECRAWL_API_KEY], [firecrawl_scrape] returns [None]
    without sending anything, every URL is handled by the direct fetch and
    the extraction of the text of the page, and the requests of the web
    stage are direct fetches of the configured URLs, at least one for each
    URL. *)
Theorem firecrawl_key_absent_direct_fetch
    (R : runtime) (urls : list json) (w : world) :
  getenv R (lit "FIRECRAWL_API_KEY") = None →
  (∀ url w0, firecrawl_scrape R url w0 = (w0, inr None))
  ∧ (∀ url w0, web_fetch_text R url w0 = direct_fetch_text R url w0)
  ∧ ∃ new lines,
      build_lines_from_web R (JList urls) w = (sent w new, inr lines)
      ∧ Forall (fun rq => ∃ url, url ∈ urls ∧ rq = Get url) new
      ∧ ∀ url, url ∈ urls → Get url ∈ new.
Proof.
  intros H%firecrawl_key_absent. split_and!.
  - intros url w0. by apply firecrawl_scrape_disabled.
  - intros url w0. by apply web_fetch_text_disabled.
  - by apply web_loop_disabled.
Qed.

Lemma firecrawl_key_absent_direct_fetch_witness :
  ∃ new lines,
    build_lines_from_web hello_site (JList [url_a]) world0
    = (sent world0 new, inr lines)
    ∧ Forall (fun rq => ∃ url, url ∈ [url_a] ∧ rq = Get url) new
    ∧ ∀ url, url ∈ [url_a] → Get url ∈ new.
Proof.
  apply (firecrawl_key_absent_direct_fetch hello_site [url_a] world0).
  reflexivity.
Defined.

(** ** The whole run *)

Lemma elem_of_aggregate l lines :
  l ∈ aggregate lines → ∃ x, x ∈ lines ∧ l = clean_text x ∧ l ≠ [].
Proof.
  unfold aggregate, dedupe_keep_order. intros [Hl _]%elem_of_dedupe_loop.
  pose proof (normalize_lines_spec lines) as Hs. rewrite Forall_forall in Hs.
  destruct (Hs l Hl) as [_ Hne].
  unfold normalize_lines in Hl. apply list_elem_of_fmap in Hl as (x & -> & Hx).
  exists x. split_and!; [|done|done].
  apply list_elem_of_In in Hx. apply filter_In in Hx as [Hx _].
  by apply list_elem_of_In.
Qed.

Lemma elem_of_concat_zip_with {A B C} (f : A → B → list C) us ts x :
  x ∈ concat (zip_with f us ts) → ∃ u t, x ∈ f u t.
Proof.
  revert ts. induction us as [|u us IH]; intros [|t ts]; simpl;
    try by intros ?%elem_of_nil.
  intros [H|H]%elem_of_app; [by exists u, t|by apply (IH ts)].
Qed.

Lemma elem_of_web_lines R url t line :
  line ∈ web_lines R url t → ∃ chunk, line = web_line R url chunk.
Proof.
  destruct t as [[|c t]|]; unfold web_lines; try by intros ?%elem_of_nil.
  intros (chunk & -> & _)%list_elem_of_fmap. by exists chunk.
Qed.

Lemma starts_with_app p s : starts_with p (p ++ s) = true.
Proof.
  unfold starts_with. induction p as [|a p IH]; simpl; [done|].
  by rewrite N.eqb_refl.
Qed.

Lemma clean_text_web_line R url chunk :
  starts_with (lit "SRC:WEB") (clean_text (web_line R url chunk)) = true.
Proof.
  rewrite clean_text_join. unfold web_line.
  change (lit "SRC:WEB " ++ ?r) with (lit "SRC:WEB" ++ SPACE :: r).
  unfold split. rewrite split_from_word by (repeat constructor).
  rewrite split_from_space by reflexivity.
  change (flush ([] ++ lit "SRC:WEB") ++ ?r) with (lit "SRC:WEB" :: r).
  destruct (split _) as [|x xs]; [reflexivity|].
  change (join [SPACE] (lit "SRC:WEB" :: x :: xs))
    with (lit "SRC:WEB" ++ [SPACE] ++ join [SPACE] (x :: xs)).
  apply starts_with_app.
Qed.

Lemma web_not_apify l :
  starts_with (lit "SRC:WEB") l = true → starts_with (lit "SRC:APIFY") l = false.
Proof.
  unfold starts_with.
  change (lit "SRC:WEB") with ([83; 82; 67; 58; 87; 69; 66]%N).
  change (lit "SRC:APIFY") with ([83; 82; 67; 58; 65; 80; 73; 70; 89]%N).
  destruct l as [|c0 [|c1 [|c2 [|c3 [|c4 l]]]]]; cbn [strip_prefix];
    try done;
    repeat match goal with
      | |- context [(?a =? ?b)%N] =>
          let E := fresh "E" in
          destruct (a =? b)%N eqn:E; [apply N.eqb_eq in E; try subst|];
          try done
      end.
Qed.

Lemma from_web_step R urls w :
  (if truthy (JList urls) then build_lines_from_web R (JList urls) else ret []) w
  = build_lines_from_web R (JList urls) w.
Proof. by destruct urls. Qed.

Lemma sends_build_lines_from_web R (P : request → Prop) urls :
  (∀ url, P (FirecrawlScrape url) ∧ P (FirecrawlCrawl url) ∧ P (Get url)) →
  sends P (build_lines_from_web R urls).
Proof.
  intros HP. apply sends_bind; [apply sends_lift|].
  intros us. by apply sends_web_loop.
Qed.

Lemma sends_main_lines R :
  apify_enabled R = false → sends is_web_request (main_lines R).
Proof.
  intros Htok. unfold main_lines. apply sends_bind; [apply sends_lift|].
  intros cfg. cbv zeta. rewrite Htok, andb_false_r. apply sends_bind.
  - destruct (truthy _); [|apply sends_ret].
    by apply sends_build_lines_from_web.
  - intros from_web. apply sends_bind; intros; apply sends_ret.
Qed.

Lemma main_of_lines R w w1 lines :
  main_lines R w = (w1, inr lines) →
  main R w
  = if utf8_encodable (join [NEWLINE] lines)
    then ({| calls := calls w1; out_txt := Some (join [NEWLINE] lines) |},
          inr 0%Z)
    else ({| calls := calls w1; out_txt := Some [] |}, inl UnicodeEncodeError).
Proof.
  intros H. unfold main, mbind, M_bind, bind. rewrite H. unfold write_out.
  by destruct (utf8_encodable _).
Qed.

Lemma main_of_raise R w w1 e :
  main_lines R w = (w1, inl e) → main R w = (w1, inl e).
Proof. intros H. unfold main, mbind, M_bind, bind. by rewrite H. Qed.

Lemma main_calls R w : calls (main R w).1 = calls (main_lines R w).1.
Proof.
  destruct (main_lines R w) as [w1 [e|lines]] eqn:Hm.
  - by rewrite (main_of_raise _ _ _ _ Hm).
  - rewrite (main_of_lines _ _ _ _ Hm). by destruct (utf8_encodable _).
Qed.

Lemma main_read_sources_raises R w e :
  read_sources R = inl e → main R w = (w, inl e).
Proof.
  intros Hr. apply main_of_raise.
  unfold main_lines, mbind, M_bind, bind, lift. by rewrite Hr.
Qed.

Example no_token_site_main :
  main no_token_site world0
  = ({| calls := [Get url_a];
        out_txt := Some (lit "SRC:WEB http://example.test/a | Hello World") |},
     inr 0%Z).
Proof. vm_compute. reflexivity. Qed.

(** C4, where the code departs from it.  Without [APIFY_TOKEN] no run
    sends a request to an actor, whatever is configured.  When the
    configuration loads with a list of web sources, the lines of the run
    are the aggregated lines of the web stage and nothing else: every line
    is a [SRC:WEB] line, none a [SRC:APIFY] line, without web sources there
    is none, and [main] writes them and ends with status 0 if they can be
    encoded, else leaves an empty file and raises.  But the run does not
    always complete: when [read_sources] raises, [main] raises with it and
    writes nothing. *)
Theorem apify_token_absent_skips_actors (R : runtime) (w : world) :
  getenv R (lit "APIFY_TOKEN") = None →
  (∃ new, calls (main R w).1 = calls w ++ new ∧ Forall is_web_request new)
  ∧ (∀ cfg urls,
       read_sources R = inr cfg →
       dict_get_default cfg (lit "web") (JList []) = JList urls →
       ∃ new from_web,
         build_lines_from_web R (JList urls) w = (sent w new, inr from_web)
         ∧ main_lines R w = (sent w new, inr (aggregate from_web))
         ∧ main R w
           = (if utf8_encodable (join [NEWLINE] (aggregate from_web))
              then ({| calls := calls w ++ new;
                       out_txt := Some (join [NEWLINE] (aggregate from_web)) |},
                    inr 0%Z)
              else ({| calls := calls w ++ new; out_txt := Some [] |},
                    inl UnicodeEncodeError))
         ∧ Forall (fun l => starts_with (lit "SRC:WEB") l = true
                            ∧ starts_with (lit "SRC:APIFY") l = false)
             (aggregate from_web)
         ∧ (urls = [] → new = [] ∧ aggregate from_web = []))
  ∧ (∀ e, read_sources R = inl e → main R w = (w, inl e)).
Proof.
  intros Htok%apify_token_absent. split_and!.
  { destruct (sends_main_lines R Htok w) as (new & Hw & Hnew).
    exists new. split; [|done]. by rewrite main_calls, Hw. }
  2: { intros e. apply main_read_sources_raises. }
  intros cfg urls Hcfg Hweb.
  destruct (build_lines_from_web_run R is_web_request urls w)
    as (new & texts & _ & Hl & Hnew); [done|].
  exists new, (concat (zip_with (web_lines R) urls texts)).
  assert (main_lines R w
          = (sent w new,
             inr (aggregate (concat (zip_with (web_lines R) urls texts)))))
    as Hm.
  { unfold main_lines, mbind, M_bind, bind, lift.
    rewrite Hcfg, Hweb, from_web_step, Hl, Htok, andb_false_r.
    unfold ret. by rewrite app_nil_r. }
  split_and!.
  - exact Hl.
  - exact Hm.
  - by rewrite (main_of_lines _ _ _ _ Hm).
  - apply Forall_forall. intros l (x & Hx & -> & _)%elem_of_aggregate.
    apply elem_of_concat_zip_with in Hx as (u & t & Hx).
    apply elem_of_web_lines in Hx as (chunk & ->).
    pose proof (clean_text_web_line R u chunk) as Hs.
    split; [done|by apply web_not_apify].
  - intros ->. simpl in Hl. unfold mbind, M_bind, bind, lift in Hl.
    simpl in Hl. injection Hl as Hw. split; [|reflexivity].
    apply (f_equal calls) in Hw. simpl in Hw.
    apply (f_equal length) in Hw. rewrite length_app in Hw.
    destruct new; [done|simpl in Hw; lia].
Qed.

Lemma apify_token_absent_skips_actors_witness :
  (∃ new, calls (main no_token_site world0).1 = calls world0 ++ new
          ∧ Forall is_web_request new)
  ∧ (∃ new from_web,
       build_lines_from_web no_token_site (JList [url_a]) world0
       = (sent world0 new, inr from_web)
       ∧ main_lines no_token_site world0
         = (sent world0 new, inr (aggregate from_web))
       ∧ main no_token_site world0
         = (if utf8_encodable (join [NEWLINE] (aggregate from_web))
            then ({| calls := calls world0 ++ new;
                     out_txt := Some (join [NEWLINE] (aggregate from_web)) |},
                  inr 0%Z)
            else ({| calls := calls world0 ++ new; out_txt := Some [] |},
                  inl UnicodeEncodeError))
       ∧ Forall (fun l => starts_with (lit "SRC:WEB") l = true
                          ∧ starts_with (lit "SRC:APIFY") l = false)
           (aggregate from_web)
       ∧ ([url_a] = [] → new = [] ∧ aggregate from_web = []))
  ∧ main broken_site world0 = (world0, inl YAMLError).
Proof.
  destruct (apify_token_absent_skips_actors no_token_site world0 eq_refl)
    as (H1 & H2 & _).
  destruct (apify_token_absent_skips_actors broken_site world0 eq_refl)
    as (_ & _ & H3).
  split_and!; [exact H1| |apply (H3 YAMLError); reflexivity].
  apply (H2 [(lit "web", JList [url_a]);
             (lit "apify",
              JList [JDict [(lit "actor", actor_xy); (lit "input", JDict [])]])]);
    reflexivity.
Defined.

(** ** The output file *)

Lemma is_linebreak_isspace c : is_linebreak c = true → isspace c = true.
Proof.
  unfold is_linebreak, isspace.
  rewrite !orb_true_iff, !andb_true_iff, !N.leb_le, !N.eqb_eq. lia.
Qed.

Lemma splitlines_from_plain s cur rest :
  Forall (fun c => is_linebreak c = false) s →
  splitlines_from cur (s ++ rest) = splitlines_from (cur ++ s) rest.
Proof.
  intros Hs. revert cur. induction Hs as [|c s Hc _ IH]; intros cur.
  - by rewrite app_nil_r.
  - simpl. rewrite Hc, IH, <- app_assoc. reflexivity.
Qed.

Lemma splitlines_from_newline cur c rest :
  splitlines_from cur (NEWLINE :: c :: rest)
  = cur :: splitlines_from [] (c :: rest).
Proof. reflexivity. Qed.

Lemma splitlines_join ls :
  Forall (fun l => l ≠ [] ∧ Forall (fun c => is_linebreak c = false) l) ls →
  splitlines (join [NEWLINE] ls) = ls.
Proof.
  induction 1 as [|l ls [Hne Hl] Hls IH]; [reflexivity|].
  unfold splitlines. destruct ls as [|l' ls].
  - simpl. pose proof (splitlines_from_plain l [] [] Hl) as E.
    rewrite app_nil_r in E. rewrite E. simpl. by destruct l.
  - change (join [NEWLINE] (l :: l' :: ls))
      with (l ++ NEWLINE :: join [NEWLINE] (l' :: ls)).
    rewrite splitlines_from_plain by done. rewrite app_nil_l.
    destruct (join [NEWLINE] (l' :: ls)) as [|c rest] eqn:Hj.
    + exfalso. apply Forall_inv in Hls as [Hne' _].
      destruct ls; simpl in Hj; [done|]. by destruct l'.
    + unfold splitlines in IH. by rewrite splitlines_from_newline, IH.
Qed.

Lemma aggregate_lines_plain all_lines :
  Forall (fun l => l ≠ [] ∧ Forall (fun c => is_linebreak c = false) l)
    (aggregate all_lines).
Proof.
  apply Forall_forall. intros l (x & _ & -> & Hne)%elem_of_aggregate.
  split; [done|]. apply Forall_forall. intros c Hc.
  destruct (is_linebreak c) eqn:Hlb; [|done].
  apply clean_text_chars in Hc as [->|Hc]; [done|].
  apply is_linebreak_isspace in Hlb. unfold nonspace in Hc. congruence.
Qed.

Lemma main_lines_aggregate R w w' lines :
  main_lines R w = (w', inr lines) → ∃ all_lines, lines = aggregate all_lines.
Proof.
  unfold main_lines, mbind, M_bind, bind, lift.
  destruct (read_sources R) as [e|cfg]; [done|].
  match goal with
  | |- context [match ?m w with _ => _ end] =>
      destruct (m w) as [w1 [e|from_web]]; [done|]
  end.
  match goal with
  | |- context [match ?m w1 with _ => _ end] =>
      destruct (m w1) as [w2 [e|from_apify]]; [done|]
  end.
  intros [= <- <-]. by eexists.
Qed.

Lemma main_returns R w w' code :
  main R w = (w', inr code) →
  ∃ w1 lines,
    main_lines R w = (w1, inr lines)
    ∧ utf8_encodable (join [NEWLINE] lines) = true
    ∧ w' = {| calls := calls w1; out_txt := Some (join [NEWLINE] lines) |}
    ∧ code = 0%Z.
Proof.
  destruct (main_lines R w) as [w1 [e|lines]] eqn:Hm.
  - by rewrite (main_of_raise _ _ _ _ Hm).
  - rewrite (main_of_lines _ _ _ _ Hm).
    destruct (utf8_encodable _) eqn:He; [|done].
    intros [= <- <-]. by exists w1, lines.
Qed.

(** C9. The lines of a run that ends, as [main] formats, normalises and
    deduplicates them, hold no newline: the only whitespace left in a line
    is the single space.  The file is these lines joined by newlines, so it
    reads back as exactly these lines, each on a line of its own. *)
Theorem output_lines_hold_no_newline (R : runtime) (w w' : world) (code : Z) :
  main R w = (w', inr code) →
  ∃ w1 lines,
    main_lines R w = (w1, inr lines)
    ∧ out_txt w' = Some (join [NEWLINE] lines)
    ∧ Forall (fun l => (NEWLINE ∉ l)
                       ∧ ∀ c, c ∈ l → isspace c = true → c = SPACE) lines
    ∧ splitlines (join [NEWLINE] lines) = lines.
Proof.
  intros (w1 & lines & Hm & _ & -> & _)%main_returns.
  exists w1, lines. split; [done|]. split; [done|].
  apply main_lines_aggregate in Hm as [all_lines ->].
  split; [|apply splitlines_join, aggregate_lines_plain].
  apply Forall_forall. intros l (x & _ & -> & _)%elem_of_aggregate. split.
  - apply clean_text_no_newline.
  - intros c [->|Hc]%clean_text_chars Hs; [done|].
    unfold nonspace in Hc. congruence.
Qed.

Lemma output_lines_hold_no_newline_witness :
  ∃ w1 lines,
    main_lines hello_site world0 = (w1, inr lines)
    ∧ out_txt {| calls := [Get url_a];
                 out_txt := Some (lit "SRC:WEB http://example.test/a | Hello World") |}
      = Some (join [NEWLINE] lines)
    ∧ Forall (fun l => (NEWLINE ∉ l)
                       ∧ ∀ c, c ∈ l → isspace c = true → c = SPACE) lines
    ∧ splitlines (join [NEWLINE] lines) = lines.
Proof.
  apply (output_lines_hold_no_newline hello_site world0 _ 0%Z).
  vm_compute. reflexivity.
Defined.

(** ** Loading the configuration *)

Lemma read_sources_absent R :
  sources_yaml R = None →
  read_sources R = inr [(lit "web", JList []); (lit "apify", JList [])].
Proof. intros H. unfold read_sources. by rewrite H. Qed.

Lemma main_absent R w :
  sources_yaml R = None →
  main R w = ({| calls := calls w; out_txt := Some [] |}, inr 0%Z).
Proof.
  intros H. unfold main, main_lines, mbind, M_bind, bind, lift.
  rewrite read_sources_absent by done. reflexivity.
Qed.

(** C2, where the code departs from it.  When [sources.yaml] exists and
    [yaml.safe_load] raises, [read_sources] raises the same exception and so
    does [main]: nothing is fetched and nothing is written. *)
Theorem read_sources_unparseable_raises
    (R : runtime) (content : str) (e : exn) (w : world) :
  sources_yaml R = Some content →
  yaml_safe_load R content = inl e →
  read_sources R = inl e ∧ main R w = (w, inl e).
Proof.
  intros Hf He.
  assert (read_sources R = inl e) as Hr.
  { unfold read_sources. by rewrite Hf, He. }
  split; [done|].
  unfold main, main_lines, mbind, M_bind, bind, lift. by rewrite Hr.
Qed.

Lemma read_sources_unparseable_raises_witness :
  read_sources broken_site = inl YAMLError
  ∧ main broken_site world0 = (world0, inl YAMLError).
Proof.
  apply (read_sources_unparseable_raises broken_site (lit "sources"));
    reflexivity.
Defined.

(** ** Witnesses and counterexamples for the records *)

Lemma extract_apify_text_fields_nonblank_witness :
  apify_item_lines hello_site actor_xy [(lit "id", JInt 7)] = [].
Proof.
  apply (proj2 (extract_apify_text_fields_nonblank hello_site actor_xy
                  [(lit "id", JInt 7)])).
  vm_compute. reflexivity.
Defined.

(** C7 as stated fails on a priority field that is blank but not empty:
    [caption] is a non-empty string, so by the claim it is collected, the
    other fields are not looked at and the record has no text; the code
    skips it, takes the long [note] and emits a line. *)
Lemma nonempty_priority_counterexample :
  text_fields_spec nonempty blank_caption_item = []
  ∧ extract_apify_text_fields blank_caption_item
    = lit "a note of more than twenty characters"
  ∧ apify_item_lines hello_site actor_xy blank_caption_item
    = [lit "SRC:APIFY x/y | a note of more than twenty characters"].
Proof. split_and!; vm_compute; reflexivity. Qed.

Lemma apify_source_first_truthy_witness :
  ∃ chunk,
    lit "SRC:APIFY http://s.test | Hi there"
    = lit "SRC:APIFY " ++ fmt hello_site (first_truthy hi_item actor_xy)
        ++ lit " | " ++ chunk.
Proof.
  apply (proj2 (apify_source_first_truthy hello_site actor_xy hi_item)).
  vm_compute. constructor.
Defined.

(** C8 as stated fails on a record whose [url] is present and empty: the
    first present key is [url], whose value is the empty string, and the
    code labels the record with its [link]. *)
Lemma first_present_counterexample :
  first_present empty_url_item actor_xy = JStr []
  ∧ apify_source empty_url_item actor_xy = JStr (lit "http://s.test/l")
  ∧ apify_item_lines hello_site actor_xy empty_url_item
    = [lit "SRC:APIFY http://s.test/l | Hi there"].
Proof. split_and!; vm_compute; reflexivity. Qed.

Lemma resolve_env_placeholders_structure_witness :
  skeleton (resolve_env_placeholders region_site search_input)
  = skeleton search_input
  ∧ ∃ kvs', resolve_env_placeholders region_site search_input = JDict kvs'
            ∧ dict_keys kvs' = [lit "q"; lit "tags"; lit "page"].
Proof.
  apply (resolve_env_placeholders_structure region_site search_input).
  vm_compute. reflexivity.
Defined.

(** * Further properties *)

(** ** More on normalisation, chunking and deduplication *)

Lemma concat_split_from cur s :
  concat (split_from cur s) = cur ++ visible s.
Proof.
  revert cur. induction s as [|c s IH]; intros cur; simpl.
  - destruct cur; simpl; by rewrite ?app_nil_r.
  - unfold visible. simpl. destruct (isspace c); simpl.
    + destruct cur; simpl; by rewrite IH.
    + by rewrite IH, <- app_assoc.
Qed.

Lemma split_blanks_app bs s :
  Forall is_blank_char bs → split (bs ++ s) = split s.
Proof.
  induction 1 as [|c bs Hc _ IH]; [done|].
  unfold split. cbn [app]. rewrite split_from_space by exact Hc. exact IH.
Qed.

Lemma split_word_rest w rest :
  word w → (∀ c, head rest = Some c → is_blank_char c) →
  split (w ++ rest) = w :: split rest.
Proof.
  intros [Hne Hw] Hr. unfold split at 1. rewrite split_from_word by done.
  rewrite app_nil_l. destruct rest as [|c rest].
  - simpl. by destruct w.
  - assert (isspace c = true) as Hc by (apply (Hr c); reflexivity).
    assert (split (c :: rest) = split rest) as ->.
    { unfold split at 1. by rewrite split_from_space. }
    rewrite split_from_space by done. by destruct w.
Qed.

Lemma words_of_split s ws : words_of s ws → split s = ws.
Proof.
  induction 1 as [bs Hbs|bs w rest ws Hbs Hw Hr _ IH].
  - unfold split. by rewrite split_from_spaces.
  - rewrite split_blanks_app by done. rewrite split_word_rest by done.
    by rewrite IH.
Qed.

Lemma words_of_cons c s ws : words_of s ws → ∃ ws', words_of (c :: s) ws'.
Proof.
  intros H. destruct (isspace c) eqn:Hc.
  - destruct H as [bs Hbs|bs w rest ws Hbs Hw Hr Hrest].
    + exists []. constructor. by constructor.
    + exists (w :: ws). rewrite app_comm_cons.
      constructor; [by constructor|done|done|done].
  - assert (word [c]) as Hword.
    { split; [done|]. by repeat constructor. }
    destruct H as [bs Hbs|bs w rest ws Hbs Hw Hr Hrest].
    + exists [[c]]. change (c :: bs) with ([] ++ [c] ++ bs).
      constructor; [constructor|done| |by constructor].
      intros x Hx. destruct bs as [|b bs]; [done|]. injection Hx as <-.
      by apply Forall_inv in Hbs.
    + destruct bs as [|b bs].
      * exists ((c :: w) :: ws).
        change (c :: [] ++ w ++ rest) with ([] ++ (c :: w) ++ rest).
        constructor; [constructor| |done|done].
        destruct Hw as [_ Hw]. split; [done|by constructor].
      * exists ([c] :: w :: ws).
        change (c :: (b :: bs) ++ w ++ rest)
          with ([] ++ [c] ++ ((b :: bs) ++ w ++ rest)).
        constructor; [constructor|done| |by constructor].
        intros x [= <-]. by apply Forall_inv in Hbs.
Qed.

Lemma words_of_exists s : ∃ ws, words_of s ws.
Proof.
  induction s as [|c s [ws IH]].
  - exists []. by constructor.
  - by eapply words_of_cons.
Qed.

(** X1. [clean_text] returns the words of the text, its maximal runs of
    characters that are not whitespace, in order and joined by single
    spaces.  Every text has its words, and they hold exactly the characters
    of the text that are not whitespace; the result has no whitespace at
    either end, and normalising it again changes nothing. *)
Theorem clean_text_words (s : str) :
  (∃ ws, words_of s ws)
  ∧ (∀ ws, words_of s ws →
       clean_text s = join [SPACE] ws ∧ concat ws = visible s)
  ∧ strip (clean_text s) = clean_text s
  ∧ clean_text (clean_text s) = clean_text s.
Proof.
  split_and!.
  - apply words_of_exists.
  - intros ws <-%words_of_split. split.
    + apply clean_text_join.
    + apply (concat_split_from [] s).
  - apply strip_trimmed. rewrite clean_text_join.
    apply join_words_trimmed, split_words.
  - apply clean_text_idem.
Qed.

Example words_of_ex :
  words_of (lit "  Hello   World ") [lit "Hello"; lit "World"].
Proof.
  apply (words_of_word (lit "  ") (lit "Hello") (lit "   World ")).
  - by repeat constructor.
  - split; [done|]. by repeat constructor.
  - by intros c [= <-].
  - apply (words_of_word (lit "   ") (lit "World") (lit " ")).
    + by repeat constructor.
    + split; [done|]. by repeat constructor.
    + by intros c [= <-].
    + constructor. by repeat constructor.
Qed.

Lemma strip_nil_clean_text x : strip x = [] → clean_text x = [].
Proof.
  intros H. apply clean_text_nil_iff. rewrite <- split_strip, H. reflexivity.
Qed.

Lemma truthy_strip_clean_text x :
  truthy_str (strip x) = truthy_str (clean_text x).
Proof.
  destruct (strip x) as [|c r] eqn:Hs.
  - by rewrite strip_nil_clean_text.
  - assert (clean_text x ≠ []) as Hne.
    { apply strip_truthy_clean. by rewrite Hs. }
    by destruct (clean_text x).
Qed.

Lemma keep_line_clean_text x :
  truthy_str x && truthy_str (strip x) = truthy_str (clean_text x).
Proof.
  rewrite truthy_strip_clean_text. destruct x; [reflexivity|].
  apply andb_true_l.
Qed.

(** X2. The filter of [main], [x and x.strip()], drops exactly the lines
    whose normalisation is empty: normalising every line and then dropping
    the empty ones gives the same list. *)
Theorem normalize_lines_drops_empty (all_lines : list str) :
  normalize_lines all_lines = List.filter truthy_str (clean_text <$> all_lines).
Proof.
  unfold normalize_lines. induction all_lines as [|x l IH]; [reflexivity|].
  rewrite fmap_cons.
  change (List.filter ?f (x :: l))
    with (if f x then x :: List.filter f l else List.filter f l).
  change (List.filter truthy_str (clean_text x :: (clean_text <$> l)))
    with (if truthy_str (clean_text x)
          then clean_text x :: List.filter truthy_str (clean_text <$> l)
          else List.filter truthy_str (clean_text <$> l)).
  cbv beta. rewrite keep_line_clean_text.
  destruct (truthy_str (clean_text x)); [rewrite fmap_cons|]; by rewrite IH.
Qed.

Lemma chunks_length_div (text : str) :
  length (chunks text) = (length text + CHUNK - 1) `div` CHUNK.
Proof. unfold chunks, range_step. by rewrite !length_fmap, length_seq. Qed.

Lemma chunks_lookup (text : str) i chunk :
  chunks text !! i = Some chunk →
  i < length (chunks text) ∧ chunk = take CHUNK (drop (i * CHUNK) text).
Proof.
  intros H. split; [by eapply lookup_lt_Some|].
  unfold chunks, range_step in H. rewrite !list_lookup_fmap in H.
  destruct (seq 0 _ !! i) as [k|] eqn:Hk; [|done].
  apply lookup_seq in Hk as [-> _]. simpl in H. injection H as <-.
  unfold slice. f_equal. lia.
Qed.

Lemma chunks_lookup_length (text : str) i chunk :
  chunks text !! i = Some chunk →
  0 < length chunk ≤ CHUNK
  ∧ (S i < length (chunks text) → length chunk = CHUNK).
Proof.
  intros [Hi ->]%chunks_lookup. rewrite chunks_length_div in Hi |- *.
  assert (0 < CHUNK) as Hpos by (unfold CHUNK; lia).
  pose proof (Nat.div_mod_eq (length text + CHUNK - 1) CHUNK) as E.
  pose proof (Nat.mod_upper_bound (length text + CHUNK - 1) CHUNK) as B.
  rewrite length_take, length_drop. nia.
Qed.

(** X3. The chunking loop cuts a text of [n] characters into
    [ceil(n / 800)] chunks, none for an empty text: for every [i] below that
    number there is a chunk [i], it is the window of 800 characters starting
    at [800 * i], it is not empty, and unless it is the last it has exactly
    800 characters. *)
Theorem chunks_windows (text : str) :
  length (chunks text) = (length text + 799) `div` 800
  ∧ ∀ i, i < (length text + 799) `div` 800 →
      ∃ chunk,
        chunks text !! i = Some chunk
        ∧ chunk = take 800 (drop (i * 800) text)
        ∧ 0 < length chunk
        ∧ (S i < (length text + 799) `div` 800 → length chunk = 800).
Proof.
  assert (length (chunks text) = (length text + 799) `div` 800) as Hn.
  { rewrite chunks_length_div. unfold CHUNK. f_equal. lia. }
  split; [exact Hn|]. intros i Hi. rewrite <- Hn in Hi |- *.
  destruct (lookup_lt_is_Some_2 _ _ Hi) as [chunk H]. exists chunk.
  destruct (chunks_lookup _ _ _ H) as [_ Hc].
  destruct (chunks_lookup_length _ _ _ H) as [[Hpos _] Hfull].
  split_and!; [exact H|exact Hc|exact Hpos|exact Hfull].
Qed.

Example chunks_long_text :
  chunks long_text = [repeat 97%N 799 ++ lit " "; lit "b"].
Proof. vm_compute. reflexivity. Qed.

Lemma dedupe_loop_union (s1 s2 : gset str) items :
  dedupe_loop (s1 ∪ s2) [] items
  = List.filter (fun x => bool_decide (x ∉ s1)) (dedupe_loop s2 [] items).
Proof.
  revert s2. induction items as [|x items IH]; intros s2; [reflexivity|].
  rewrite !dedupe_loop_cons.
  destruct (decide (x ∈ s2)) as [H2|H2].
  - rewrite decide_True by set_solver. apply IH.
  - destruct (decide (x ∈ s1)) as [H1|H1].
    + rewrite decide_True by set_solver. simpl.
      rewrite bool_decide_eq_false_2 by set_solver.
      rewrite <- IH. f_equal. set_solver.
    + rewrite decide_False by set_solver. simpl.
      rewrite bool_decide_eq_true_2 by done.
      rewrite <- IH. do 2 f_equal. set_solver.
Qed.

(** X4. Deduplicating a concatenation: the lines of the first list are
    deduplicated among themselves, and the second list adds, in the order of
    its own first occurrences, the lines that the first list does not
    hold. *)
Theorem dedupe_keep_order_app (l1 l2 : list str) :
  dedupe_keep_order (l1 ++ l2)
  = dedupe_keep_order l1
    ++ List.filter (fun x => bool_decide (x ∉ l1)) (dedupe_keep_order l2).
Proof.
  unfold dedupe_keep_order. rewrite dedupe_loop_app. f_equal.
  rewrite (right_id_L ∅ (∪)).
  rewrite <- (right_id_L ∅ (∪) (list_to_set l1)) at 1.
  rewrite dedupe_loop_union. apply filter_ext. intros x.
  apply bool_decide_ext. set_solver.
Qed.

(** X5. What the aggregator returns, for any list of lines: lines without
    duplicates, each the normalisation of a line it was given, none empty
    and each already normalised; aggregating again changes nothing. *)
Theorem aggregate_output (all_lines : list str) :
  NoDup (aggregate all_lines)
  ∧ Forall (fun l => l ≠ [] ∧ clean_text l = l ∧ ∃ x, x ∈ all_lines ∧ l = clean_text x)
      (aggregate all_lines)
  ∧ aggregate (aggregate all_lines) = aggregate all_lines.
Proof.
  split_and!.
  - apply NoDup_dedupe_loop.
  - apply Forall_forall. intros l (x & Hx & -> & Hne)%elem_of_aggregate.
    split_and!; [done|apply clean_text_idem|by exists x].
  - apply aggregate_aggregate.
Qed.

(** ** More on the configuration and the placeholders *)

Lemma dict_lookup_app_l d1 d2 key v :
  dict_lookup d1 key = Some v → dict_lookup (d1 ++ d2) key = Some v.
Proof.
  induction d1 as [|[k w] d1 IH]; simpl; [done|].
  case_decide; [done|exact IH].
Qed.

Lemma dict_lookup_setdefault d key default k v :
  dict_lookup d k = Some v →
  dict_lookup (dict_setdefault d key default) k = Some v.
Proof.
  intros H. unfold dict_setdefault.
  destruct (dict_lookup d key); [done|by apply dict_lookup_app_l].
Qed.

Lemma dict_lookup_setdefault_key d key default :
  is_Some (dict_lookup (dict_setdefault d key default) key).
Proof.
  unfold dict_setdefault. destruct (dict_lookup d key) as [v|] eqn:H.
  - rewrite H. by eexists.
  - induction d as [|[k w] d IH]; simpl in *.
    + rewrite decide_True by done. by eexists.
    + case_decide; [done|]. by apply IH.
Qed.

Lemma dict_lookup_setdefault_inv d key default k v :
  dict_lookup (dict_setdefault d key default) k = Some v →
  dict_lookup d k = Some v ∨ (k = key ∧ v = default).
Proof.
  unfold dict_setdefault. destruct (dict_lookup d key); [by left|].
  induction d as [|[k' w] d IH]; simpl.
  - case_decide; [|done]. intros [= <-]. by right.
  - case_decide; [by left|exact IH].
Qed.

(** X6. When [read_sources] returns, the configuration has a [web] and an
    [apify] entry, and every entry of the loaded document is kept with its
    value: [setdefault] only adds what is missing.  Nothing else is added:
    an entry of the configuration is an entry of the loaded document, or
    one of the two defaults with the empty list. *)
Theorem read_sources_keys (R : runtime) (cfg : list (str * json)) :
  read_sources R = inr cfg →
  is_Some (dict_lookup cfg (lit "web"))
  ∧ is_Some (dict_lookup cfg (lit "apify"))
  ∧ (∀ content data k v,
       sources_yaml R = Some content →
       yaml_safe_load R content = inr (JDict data) →
       dict_lookup data k = Some v → dict_lookup cfg k = Some v)
  ∧ (∀ k v,
       dict_lookup cfg k = Some v →
       ((k = lit "web" ∨ k = lit "apify") ∧ v = JList [])
       ∨ ∃ content data,
           sources_yaml R = Some content
           ∧ yaml_safe_load R content = inr (JDict data)
           ∧ dict_lookup data k = Some v).
Proof.
  unfold read_sources. destruct (sources_yaml R) as [content|].
  - destruct (yaml_safe_load R content) as [e|loaded] eqn:Hl; [done|].
    destruct (py_or loaded (JDict [])) as [| | | | | |data] eqn:Hd; try done.
    intros [= <-]. split_and!.
    + destruct (dict_lookup_setdefault_key data (lit "web") (JList []))
        as [v Hv].
      exists v. by apply dict_lookup_setdefault.
    + apply dict_lookup_setdefault_key.
    + intros content' data' k v [= <-] H2 Hk.
      rewrite Hl in H2. injection H2 as ->.
      assert (data = data') as <-.
      { unfold py_or in Hd. by destruct data'; simplify_eq/=. }
      by do 2 apply dict_lookup_setdefault.
    + intros k v [[Hk|[-> ->]]%dict_lookup_setdefault_inv|[-> ->]]
        %dict_lookup_setdefault_inv; [|left; split; [by left|done]
                                      |left; split; [by right|done]].
      right. exists content, data. split_and!; [done| |done].
      unfold py_or in Hd. destruct (truthy loaded); [by subst|].
      injection Hd as <-. done.
  - intros [= <-]. split_and!; [by eexists|by eexists|done|].
    intros k v Hk. left. simpl in Hk.
    repeat case_decide; simplify_eq; split; auto.
Qed.

Lemma read_sources_keys_witness :
  (is_Some (dict_lookup
              [(lit "web", JList [url_a]); (lit "note", JStr (lit "x"));
               (lit "apify", JList [])] (lit "web"))
   ∧ is_Some (dict_lookup
                [(lit "web", JList [url_a]); (lit "note", JStr (lit "x"));
                 (lit "apify", JList [])] (lit "apify")))
  ∧ dict_lookup
      [(lit "web", JList [url_a]); (lit "note", JStr (lit "x"));
       (lit "apify", JList [])] (lit "note")
    = Some (JStr (lit "x")).
Proof.
  destruct (read_sources_keys
              (plain_site
                 (Some (inr (JDict [(lit "web", JList [url_a]);
                                    (lit "note", JStr (lit "x"))]))) [])
              [(lit "web", JList [url_a]); (lit "note", JStr (lit "x"));
               (lit "apify", JList [])] eq_refl)
    as (Hweb & Hapify & Hkept & _).
  split; [by split|].
  apply (Hkept (lit "sources")
           [(lit "web", JList [url_a]); (lit "note", JStr (lit "x"))]);
    reflexivity.
Defined.

(** X7. A document that loads as a false value (null, an empty mapping, an
    empty list, ...) gives the empty configuration; one that loads as a true
    value that is not a mapping makes [read_sources] raise
    [AttributeError]. *)
Theorem read_sources_not_a_mapping (R : runtime) (content : str) (loaded : json) :
  sources_yaml R = Some content →
  yaml_safe_load R content = inr loaded →
  (truthy loaded = false → read_sources R = inr EMPTY_CONFIG)
  ∧ (truthy loaded = true → is_dict loaded = false →
     read_sources R = inl AttributeError).
Proof.
  intros Hf Hl. unfold read_sources, py_or. rewrite Hf, Hl. split.
  - intros ->. reflexivity.
  - intros -> Hd. by destruct loaded.
Qed.

Lemma read_sources_not_a_mapping_witness :
  (truthy (JList [url_a]) = false →
   read_sources (plain_site (Some (inr (JList [url_a]))) []) = inr EMPTY_CONFIG)
  ∧ (truthy (JList [url_a]) = true → is_dict (JList [url_a]) = false →
     read_sources (plain_site (Some (inr (JList [url_a]))) [])
     = inl AttributeError).
Proof.
  apply (read_sources_not_a_mapping
           (plain_site (Some (inr (JList [url_a]))) []) (lit "sources"));
    reflexivity.
Defined.

Lemma strip_prefix_app p s : strip_prefix p (p ++ s) = Some s.
Proof. induction p as [|a p IH]; simpl; [done|]. by rewrite N.eqb_refl. Qed.

Lemma span_ident_name tail post :
  forallb is_ident_char tail = true →
  span_ident (tail ++ 125%N :: post) = (tail, 125%N :: post).
Proof.
  induction tail as [|c tail IH]; simpl; [done|].
  intros [Hc Ht]%andb_prop. by rewrite Hc, IH.
Qed.

Lemma match_placeholder_name name post :
  valid_name name = true →
  match_placeholder (placeholder name ++ post) = Some (name, post).
Proof.
  destruct name as [|c tail]; [done|]. cbn [valid_name].
  intros [Hc Ht]%andb_prop. unfold match_placeholder, placeholder.
  rewrite <- !app_assoc, strip_prefix_app. cbn [app].
  rewrite Hc. change (lit "}" ++ post) with (125%N :: post).
  by rewrite span_ident_name.
Qed.

Lemma match_placeholder_other c s :
  c ≠ DOLLAR → match_placeholder (c :: s) = None.
Proof.
  intros Hc. unfold match_placeholder.
  change (lit "${ENV:") with (DOLLAR :: lit "{ENV:"). cbn [strip_prefix].
  destruct (DOLLAR =? c)%N eqn:E; [|reflexivity].
  apply N.eqb_eq in E. by subst.
Qed.

Lemma re_sub_env_plain subst pre s n :
  forallb (fun c => negb (c =? DOLLAR)%N) pre = true →
  length pre + length s ≤ n →
  re_sub_env subst n (pre ++ s) = pre ++ re_sub_env subst (length s) s.
Proof.
  revert n. induction pre as [|c pre IH]; intros n Hp Hn.
  - simpl. by apply re_sub_env_fuel.
  - simpl in Hp. apply andb_prop in Hp as [Hc Hp].
    apply negb_true_iff, N.eqb_neq in Hc.
    destruct n as [|n]; [simpl in Hn; lia|]. simpl re_sub_env.
    rewrite (match_placeholder_other c (pre ++ s) Hc).
    simpl in Hn. rewrite IH by (done || lia). reflexivity.
Qed.

Lemma re_sub_env_match subst n s var rest :
  match_placeholder s = Some (var, rest) → length s ≤ n →
  re_sub_env subst n s = subst var ++ re_sub_env subst (length rest) rest.
Proof.
  intros Hm Hn. pose proof (match_placeholder_length _ _ _ Hm) as Hlt.
  destruct s as [|c s]; [done|]. destruct n as [|n]; [simpl in Hn; lia|].
  cbn [re_sub_env]. rewrite Hm. f_equal.
  apply re_sub_env_fuel; [simpl in *; lia|done].
Qed.

(** X8. A placeholder with a valid name is replaced by the value of the
    variable, and by nothing when the variable is not set; the text before
    it, when it holds no dollar sign, is kept, the text after it is resolved
    in turn, and the value put in is not scanned again. *)
Theorem resolved_placeholder (R : runtime) (pre name post : str) :
  forallb (fun c => negb (c =? DOLLAR)%N) pre = true →
  valid_name name = true →
  resolve_env_placeholders R (JStr (pre ++ placeholder name ++ post))
  = JStr (pre ++ match getenv R name with Some v => v | None => [] end
              ++ resolved R post).
Proof.
  intros Hpre Hname. cbn [resolve_env_placeholders]. f_equal.
  rewrite re_sub_env_plain by (done || (rewrite !length_app; lia)).
  f_equal.
  change (match getenv R name with Some v => v | None => [] end)
    with (_subst R name).
  apply (re_sub_env_match (_subst R) _ _ name post); [|done].
  by apply match_placeholder_name.
Qed.

Lemma resolved_placeholder_witness :
  resolve_env_placeholders region_site
    (JStr (lit "in " ++ placeholder (lit "REGION") ++ lit ": ${ENV:MISSING}"))
  = JStr (lit "in "
          ++ match getenv region_site (lit "REGION") with
             | Some v => v
             | None => []
             end
          ++ resolved region_site (lit ": ${ENV:MISSING}")).
Proof. apply resolved_placeholder; reflexivity. Defined.

Lemma resolved_dollar_free R s :
  forallb (fun c => negb (c =? DOLLAR)%N) s = true → resolved R s = s.
Proof.
  intros H. unfold resolved.
  pose proof (re_sub_env_plain (_subst R) s [] (length s) H) as E.
  rewrite !app_nil_r in E. rewrite E by (simpl; lia). reflexivity.
Qed.

(** X9. A value none of whose strings holds a dollar sign comes back from
    [resolve_env_placeholders] unchanged. *)
Theorem resolve_env_placeholders_dollar_free (R : runtime) (v : json) :
  wf_json v = true → dollar_free v = true → resolve_env_placeholders R v = v.
Proof.
  induction v as [|b|n|f|s|xs IH|kvs IH] using json_ind_nested;
    intros Hwf Hd; try done.
  - simpl. f_equal. by apply resolved_dollar_free.
  - apply wf_json_list in Hwf. simpl in Hd. simpl. f_equal.
    induction IH as [|x xs Hx _ IHxs]; [done|].
    apply Forall_cons in Hwf as [Hwx Hwf]. simpl in Hd.
    apply andb_prop in Hd as [Hdx Hd].
    rewrite fmap_cons. f_equal; [by apply Hx|by apply IHxs].
  - apply wf_json_dict in Hwf as [Hnd Hwf].
    rewrite resolve_env_placeholders_dict by done. f_equal. simpl in Hd.
    clear Hnd. induction IH as [|[k v] kvs Hv _ IHkvs]; [done|].
    apply Forall_cons in Hwf as [Hwv Hwf]. simpl in Hd, Hv, Hwv.
    apply andb_prop in Hd as [Hdv Hd].
    rewrite fmap_cons. f_equal; [f_equal; by apply Hv|by apply IHkvs].
Qed.

Lemma resolve_env_placeholders_dollar_free_witness :
  resolve_env_placeholders region_site (JDict hi_item) = JDict hi_item.
Proof.
  apply resolve_env_placeholders_dollar_free; vm_compute; reflexivity.
Defined.

(** ** More on the fetchers *)

Lemma quiet_ret {A} (a : A) : quiet (ret a).
Proof. by intros w. Qed.

Lemma quiet_raise {A} e : quiet (raise (A:=A) e).
Proof. by intros w. Qed.

Lemma quiet_lift {A} (r : exn + A) : quiet (lift r).
Proof. by intros w. Qed.

Lemma quiet_bind {A B} (m : M A) (k : A → M B) :
  quiet m → (∀ a, quiet (k a)) → quiet (bind m k).
Proof.
  intros Hm Hk w. unfold bind. specialize (Hm w).
  destruct (m w) as [w1 [e|a]]; simpl in Hm; subst w1; [done|apply Hk].
Qed.

Lemma quiet_raise_for_status r : quiet (raise_for_status r).
Proof.
  unfold raise_for_status. destruct (_ && _); [apply quiet_ret|apply quiet_raise].
Qed.

Lemma bind_send_quiet {A} R rq (k : response → M A) w :
  (∀ r, quiet (k r)) → (bind (send R rq) k w).1 = sent w [rq].
Proof.
  intros Hk. unfold bind, send.
  destruct (net R (calls w) rq) as [e|r]; [done|]. apply Hk.
Qed.

Lemma retry_from_ok {A} n e (body : M A) w w' a :
  body w = (w', inr a) → retry_from (S n) e body w = (w', inr a).
Proof. intros H. simpl. unfold try_except. by rewrite H. Qed.

Lemma replicate_pred {A} k (x : A) : 1 ≤ k → replicate k x = x :: replicate (k - 1) x.
Proof. destruct k; [lia|]. intros _. simpl. by rewrite Nat.sub_0_r. Qed.

Lemma retry_from_single {A} n e (body : M A) rq :
  (∀ w, (body w).1 = sent w [rq]) →
  ∀ w, ∃ k r,
    retry_from n e body w = (sent w (replicate k rq), r)
    ∧ k ≤ n
    ∧ (∀ e', r = inl e' → k = n ∧ ∃ last, e' = RetryError last)
    ∧ (∀ a, r = inr a →
         1 ≤ k
         ∧ body (sent w (replicate (k - 1) rq))
           = (sent w (replicate k rq), inr a)).
Proof.
  intros Hb. revert e. induction n as [|n IH]; intros e w.
  - exists 0, (inl (RetryError e)). simpl. rewrite sent_nil.
    split_and!; [done|done| |done]. intros e' [= <-]. split; [done|by eexists].
  - simpl. unfold try_except. pose proof (Hb w) as Hw.
    destruct (body w) as [w1 [e0|a]] eqn:Hbw; simpl in Hw; subst w1.
    + destruct (IH e0 (sent w [rq])) as (k & r & Hr & Hk & Hfail & Hok).
      exists (S k), r. rewrite Hr, sent_sent. split_and!; [done|lia| |].
      * intros e' He'. destruct (Hfail e' He') as [-> Hlast]. by split.
      * intros a Ha. destruct (Hok a Ha) as [Hk1 Hbody]. split; [lia|].
        rewrite !sent_sent in Hbody. cbn [app] in Hbody.
        rewrite <- (replicate_pred k) in Hbody by done.
        replace (S k - 1) with k by lia. exact Hbody.
    + exists 1, (inr a). simpl. rewrite sent_nil.
      split_and!; [done|lia|done|]. intros a' [= <-]. by split.
Qed.

Lemma simple_fetch_body_sends R url w :
  (simple_fetch_body R url w).1 = sent w [Get url].
Proof.
  apply bind_send_quiet. intros r.
  apply quiet_bind; [apply quiet_raise_for_status|intros; apply quiet_ret].
Qed.

Lemma simple_fetch_body_ok R url w w' t :
  simple_fetch_body R url w = (w', inr t) →
  ∃ resp, net R (calls w) (Get url) = inr resp
          ∧ (200 ≤ r_status_code resp < 300)%Z
          ∧ t = r_text resp.
Proof.
  unfold simple_fetch_body, mbind, M_bind, bind, send, raise_for_status.
  destruct (net R (calls w) (Get url)) as [e|resp]; [done|].
  destruct (_ && _) eqn:Hs; [|done]. intros [= _ <-].
  apply andb_prop in Hs as [H1%Z.leb_le H2%Z.ltb_lt].
  exists resp. split; [done|]. split; [lia|done].
Qed.

Lemma simple_fetch_run (R : runtime) (url : json) (w : world) :
  ∃ k r,
    simple_fetch R url w = (sent w (replicate k (Get url)), r)
    ∧ 1 ≤ k ≤ 3
    ∧ (∀ e, r = inl e → k = 3 ∧ ∃ last, e = RetryError last)
    ∧ (∀ t, r = inr t →
         ∃ resp,
           net R (calls w ++ replicate (k - 1) (Get url)) (Get url) = inr resp
           ∧ (200 ≤ r_status_code resp < 300)%Z
           ∧ t = r_text resp).
Proof.
  destruct (retry_from_single 3 TransportError (simple_fetch_body R url)
              (Get url) (simple_fetch_body_sends R url) w)
    as (k & r & Hr & Hk & Hfail & Hok).
  exists k, r. split; [exact Hr|]. split; [split; [|lia]|split; [exact Hfail|]].
  - destruct r as [e|t]; [destruct (Hfail e eq_refl); lia|].
    by destruct (Hok t eq_refl).
  - intros t Ht. destruct (Hok t Ht) as [_ Hb].
    by apply simple_fetch_body_ok in Hb.
Qed.

(** X10. [simple_fetch] sends the same GET one to three times and nothing
    else.  It stops at the first answer with a 2xx status and returns its
    text; after three failed attempts it raises [RetryError]. *)
Theorem simple_fetch_attempts (R : runtime) (url : json) (w : world) :
  ∃ k r,
    simple_fetch R url w = (sent w (replicate k (Get url)), r)
    ∧ 1 ≤ k ≤ 3
    ∧ (∀ e, r = inl e → k = 3 ∧ ∃ last, e = RetryError last)
    ∧ (∀ t, r = inr t →
         ∃ resp,
           net R (calls w ++ replicate (k - 1) (Get url)) (Get url) = inr resp
           ∧ (200 ≤ r_status_code resp < 300)%Z
           ∧ t = r_text resp).
Proof. apply simple_fetch_run. Qed.

Lemma scrape_attempt_sends R url w :
  (scrape_attempt R url w).1 = sent w [FirecrawlScrape url].
Proof.
  apply bind_send_quiet. intros r.
  destruct (_ =? _)%Z; [|apply quiet_ret].
  apply quiet_bind; [apply quiet_lift|]. intros data. cbv zeta.
  destruct (match data with JDict _ => _ | _ => _ end) as [| | | |t| |];
    try apply quiet_ret.
  destruct (truthy_str (strip t)); apply quiet_ret.
Qed.

Lemma scrape_attempt_text R url w w' t :
  scrape_attempt R url w = (w', inr (Some t)) → truthy_str (strip t) = true.
Proof.
  unfold scrape_attempt, mbind, M_bind, bind, send, lift.
  destruct (net R (calls w) (FirecrawlScrape url)) as [e|r]; [done|].
  destruct (_ =? _)%Z; [|done].
  destruct (r_json r) as [e|data]; [done|]. cbv zeta.
  destruct (match data with JDict _ => _ | _ => _ end) as [| | | |t'| |];
    try done.
  destruct (truthy_str (strip t')) eqn:Ht; [|done]. by intros [= _ <-].
Qed.

Lemma crawl_attempt_sends R url w :
  (crawl_attempt R url w).1 = sent w [FirecrawlCrawl url].
Proof.
  apply bind_send_quiet. intros r.
  destruct (_ =? _)%Z; [|apply quiet_ret].
  apply quiet_bind; [apply quiet_lift|]. intros data.
  destruct data; try (destruct (truthy_str _); apply quiet_ret).
  destruct (py_or _ _) as [| | | | |[|it items]|]; try apply quiet_ret.
  apply quiet_bind; [apply quiet_lift|]. intros [|p parts]; apply quiet_ret.
Qed.

Lemma try_none_run {A} (m : M (option A)) w rq :
  (m w).1 = sent w [rq] →
  ∃ t, try_except m (fun _ => ret None) w = (sent w [rq], inr t)
       ∧ ∀ x, t = Some x → m w = (sent w [rq], inr (Some x)).
Proof.
  intros Hm. unfold try_except.
  destruct (m w) as [w1 [e|t]]; simpl in Hm; subst w1.
  - by exists None.
  - exists t. split; [done|]. by intros x ->.
Qed.

Lemma fc_client_run R w :
  fc_client R w
  = (w, if ascii_encodable (FIRECRAWL_API_KEY R) then inr tt
        else inl UnicodeEncodeError).
Proof. unfold fc_client. by destruct (ascii_encodable _). Qed.

Lemma firecrawl_scrape_run (R : runtime) (url : json) (w : world) :
  ∃ new r,
    firecrawl_scrape R url w = (sent w new, r)
    ∧ if firecrawl_enabled R
      then if ascii_encodable (FIRECRAWL_API_KEY R)
           then ∃ t, r = inr t
                     ∧ ((new = [FirecrawlScrape url]
                         ∧ ∃ text, t = Some text
                                   ∧ truthy_str (strip text) = true)
                        ∨ new = [FirecrawlScrape url; FirecrawlCrawl url])
           else new = [] ∧ r = inl (RetryError UnicodeEncodeError)
      else new = [] ∧ r = inr None.
Proof.
  destruct (firecrawl_enabled R) eqn:Hen;
    [destruct (ascii_encodable (FIRECRAWL_API_KEY R)) eqn:Hkey|].
  - cut (∃ new t, firecrawl_scrape_body R url w = (sent w new, inr t)
           ∧ ((new = [FirecrawlScrape url]
               ∧ ∃ text, t = Some text ∧ truthy_str (strip text) = true)
              ∨ new = [FirecrawlScrape url; FirecrawlCrawl url])).
    { intros (new & t & Hb & H). exists new, (inr t). split.
      - by apply retry_from_ok.
      - by exists t. }
    unfold firecrawl_scrape_body. rewrite Hen. cbn [negb].
    unfold mbind, M_bind, bind. rewrite fc_client_run, Hkey.
    destruct (try_none_run (scrape_attempt R url) w _
                (scrape_attempt_sends R url w)) as (t & -> & Ht).
    destruct t as [text|].
    + exists [FirecrawlScrape url], (Some text). split; [done|]. left.
      split; [done|]. exists text. split; [done|].
      by eapply scrape_attempt_text, Ht.
    + destruct (try_none_run (crawl_attempt R url)
                  (sent w [FirecrawlScrape url]) _
                  (crawl_attempt_sends R url _)) as (r & -> & _).
      rewrite sent_sent. exists [FirecrawlScrape url; FirecrawlCrawl url], r.
      split; [done|by right].
  - exists [], (inl (RetryError UnicodeEncodeError)). rewrite sent_nil.
    split; [|done].
    assert (firecrawl_scrape_body R url w = (w, inl UnicodeEncodeError)) as Hb.
    { unfold firecrawl_scrape_body. rewrite Hen. cbn [negb].
      unfold mbind, M_bind, bind. by rewrite fc_client_run, Hkey. }
    unfold firecrawl_scrape, retry. cbn [retry_from]. unfold try_except.
    by rewrite !Hb.
  - exists [], (inr None). rewrite sent_nil. split; [|done].
    by apply firecrawl_scrape_disabled.
Qed.

Example accented_key_site_scrape :
  firecrawl_scrape accented_key_site url_a world0
  = (world0, inl (RetryError UnicodeEncodeError)).
Proof. vm_compute. reflexivity. Qed.

Example accented_key_site_main :
  main accented_key_site world0
  = ({| calls := [Get url_a];
        out_txt := Some (lit "SRC:WEB http://example.test/a | Hello") |},
     inr 0%Z).
Proof. vm_compute. reflexivity. Qed.


(** ** More on the stages *)

Lemma direct_fetch_text_attempts R url w :
  ∃ k t, direct_fetch_text R url w = (sent w (replicate k (Get url)), inr t)
         ∧ 1 ≤ k ≤ 3.
Proof.
  destruct (simple_fetch_run R url w) as (k & r & Hr & Hk & _).
  unfold direct_fetch_text, try_except, mbind, M_bind, bind. rewrite Hr.
  destruct r as [e|html]; [by exists k, None|].
  unfold lift. destruct (extract_text_from_html R html) as [e|t].
  - by exists k, None.
  - by exists k, (Some t).
Qed.

Lemma web_fetch_text_after R url w w1 r :
  firecrawl_scrape R url w = (w1, r) →
  web_fetch_text R url w
  = match r with
    | inr (Some (c :: t)) => (w1, inr (Some (c :: t)))
    | _ => direct_fetch_text R url w1
    end.
Proof.
  intros Hf. unfold web_fetch_text, mbind, M_bind, bind, try_except.
  rewrite Hf. by destruct r as [e|[[|c t]|]].
Qed.

Lemma web_fetch_text_bound R url w :
  ∃ new t, web_fetch_text R url w = (sent w new, inr t) ∧ length new ≤ 5.
Proof.
  destruct (firecrawl_scrape_run R url w) as (n1 & r & Hf & Hn1).
  assert (length n1 ≤ 2) as Hl1.
  { destruct (firecrawl_enabled R);
      [destruct (ascii_encodable _);
         [destruct Hn1 as (t & _ & [[-> _]| ->])|destruct Hn1 as [-> _]]
      |destruct Hn1 as [-> _]]; simpl; lia. }
  rewrite (web_fetch_text_after _ _ _ _ _ Hf).
  destruct (direct_fetch_text_attempts R url (sent w n1))
    as (k & t & Hd & Hk).
  rewrite sent_sent in Hd.
  assert (length (n1 ++ replicate k (Get url)) ≤ 5) as Hl.
  { rewrite length_app, length_replicate. lia. }
  destruct r as [e|[[|c s]|]]; try by eexists _, t.
  exists n1, (Some (c :: s)). split; [done|lia].
Qed.

Lemma web_loop_bound R urls lines w :
  ∃ new lines',
    web_loop R lines urls w = (sent w new, inr (lines ++ lines'))
    ∧ length new ≤ 5 * length urls
    ∧ Forall (fun l => is_web_line l = true) lines'.
Proof.
  revert lines w. induction urls as [|url urls IH]; intros lines w.
  - exists [], []. simpl. rewrite sent_nil, app_nil_r. by split_and!.
  - destruct (web_fetch_text_bound R url w) as (n1 & t & Ht & Hn1).
    destruct (IH (lines ++ web_lines R url t) (sent w n1))
      as (n2 & l2 & Hl & Hn2 & Hweb).
    exists (n1 ++ n2), (web_lines R url t ++ l2). split_and!.
    + cbn [web_loop]. unfold mbind, M_bind, bind.
      rewrite Ht, Hl, sent_sent. by rewrite <- app_assoc.
    + rewrite length_app. simpl length. lia.
    + apply Forall_app. split; [|done]. apply Forall_forall.
      intros l (chunk & ->)%elem_of_web_lines. apply starts_with_app.
Qed.

Lemma build_lines_from_web_run5 (R : runtime) (urls : list json) (w : world) :
  ∃ new lines,
    build_lines_from_web R (JList urls) w = (sent w new, inr lines)
    ∧ length new ≤ 5 * length urls
    ∧ Forall (fun l => is_web_line l = true) lines.
Proof.
  destruct (web_loop_bound R urls [] w) as (new & lines & H & Hn & Hl).
  by exists new, lines.
Qed.

(** X12. The web stage never raises on a list of URLs, whatever the network
    answers: it sends at most five requests for each URL (two to the
    scraping service, three direct fetches), and every line it returns
    starts with [SRC:WEB] and a space. *)
Theorem build_lines_from_web_bound (R : runtime) (urls : list json) (w : world) :
  ∃ new lines,
    build_lines_from_web R (JList urls) w = (sent w new, inr lines)
    ∧ length new ≤ 5 * length urls
    ∧ Forall (fun l => is_web_line l = true) lines.
Proof. apply build_lines_from_web_run5. Qed.

Lemma apify_run_sync_body_sends R actor actor_input w :
  apify_enabled R = true →
  (apify_run_sync_body R actor actor_input w).1
  = sent w [ApifyRunSync actor actor_input].
Proof.
  intros Hen. unfold apify_run_sync_body. rewrite Hen. cbn [negb].
  apply bind_send_quiet. intros r.
  apply quiet_bind; [apply quiet_raise_for_status|]. intros _.
  destruct (r_json r) as [e|[| | | | |data|]]; apply quiet_ret.
Qed.

Lemma apify_run_sync_body_ok R actor actor_input w w' items :
  apify_enabled R = true →
  apify_run_sync_body R actor actor_input w = (w', inr items) →
  ∃ resp, net R (calls w) (ApifyRunSync actor actor_input) = inr resp
          ∧ (200 ≤ r_status_code resp < 300)%Z
          ∧ items = match r_json resp with
                    | inr (JList data) => data
                    | _ => ndjson_items R (r_text resp)
                    end.
Proof.
  intros Hen. unfold apify_run_sync_body. rewrite Hen. cbn [negb].
  unfold mbind, M_bind, bind, send, raise_for_status.
  destruct (net R (calls w) _) as [e|resp]; [done|].
  destruct (_ && _) eqn:Hs; [|done].
  apply andb_prop in Hs as [H1%Z.leb_le H2%Z.ltb_lt].
  intros H. exists resp. split; [done|]. split; [lia|].
  destruct (r_json resp) as [e|[| | | | |data|]]; by injection H as _ <-.
Qed.

Lemma apify_run_sync_run
    (R : runtime) (actor actor_input : json) (w : world) :
  ∃ k r,
    apify_run_sync R actor actor_input w
    = (sent w (replicate k (ApifyRunSync actor actor_input)), r)
    ∧ k ≤ 3
    ∧ if apify_enabled R
      then 1 ≤ k
           ∧ (∀ e, r = inl e → k = 3 ∧ ∃ last, e = RetryError last)
           ∧ (∀ items, r = inr items →
                ∃ resp,
                  net R (calls w
                         ++ replicate (k - 1) (ApifyRunSync actor actor_input))
                    (ApifyRunSync actor actor_input) = inr resp
                  ∧ (200 ≤ r_status_code resp < 300)%Z
                  ∧ items = match r_json resp with
                            | inr (JList data) => data
                            | _ => ndjson_items R (r_text resp)
                            end)
      else k = 0 ∧ r = inr [].
Proof.
  destruct (apify_enabled R) eqn:Hen.
  - destruct (retry_from_single 3 TransportError
                (apify_run_sync_body R actor actor_input)
                (ApifyRunSync actor actor_input)
                (fun w0 => apify_run_sync_body_sends R actor actor_input w0 Hen)
                w)
      as (k & r & Hr & Hk & Hfail & Hok).
    exists k, r. split; [exact Hr|]. split; [lia|]. split_and!.
    + destruct r as [e|t]; [destruct (Hfail e eq_refl); lia|].
      by destruct (Hok t eq_refl).
    + exact Hfail.
    + intros items Hi. destruct (Hok items Hi) as [_ Hb].
      by apply apify_run_sync_body_ok in Hb.
  - exists 0, (inr []). rewrite sent_nil. split; [|split; [lia|done]].
    unfold apify_run_sync, retry. apply retry_from_ok.
    unfold apify_run_sync_body. by rewrite Hen.
Qed.

(** X13. [apify_run_sync] without the token returns no record and sends
    nothing.  With the token it sends the same request one to three times:
    it stops at the first answer with a 2xx status, whose records are the
    JSON array of the answer or else the lines of its text that parse, and
    after three failed attempts it raises [RetryError]. *)
Theorem apify_run_sync_attempts
    (R : runtime) (actor actor_input : json) (w : world) :
  ∃ k r,
    apify_run_sync R actor actor_input w
    = (sent w (replicate k (ApifyRunSync actor actor_input)), r)
    ∧ k ≤ 3
    ∧ if apify_enabled R
      then 1 ≤ k
           ∧ (∀ e, r = inl e → k = 3 ∧ ∃ last, e = RetryError last)
           ∧ (∀ items, r = inr items →
                ∃ resp,
                  net R (calls w
                         ++ replicate (k - 1) (ApifyRunSync actor actor_input))
                    (ApifyRunSync actor actor_input) = inr resp
                  ∧ (200 ≤ r_status_code resp < 300)%Z
                  ∧ items = match r_json resp with
                            | inr (JList data) => data
                            | _ => ndjson_items R (r_text resp)
                            end)
      else k = 0 ∧ r = inr [].
Proof. apply apify_run_sync_run. Qed.

Lemma omap_length_le {A B} (f : A → option B) l :
  length (omap f l) ≤ length l.
Proof.
  induction l as [|x l IH]; [done|].
  change (omap f (x :: l))
    with (match f x with Some y => y :: omap f l | None => omap f l end).
  destruct (f x); cbn [length]; lia.
Qed.

(** X14. The newline-delimited reading of an answer keeps, in order, the
    values of the lines that parse once stripped; a blank line or a line
    that does not parse is skipped and stops nothing. *)
Theorem ndjson_items_lines (R : runtime) (text : str) :
  length (ndjson_items R text) ≤ length (splitlines text)
  ∧ (∀ v, v ∈ ndjson_items R text →
       ∃ line, line ∈ splitlines text ∧ strip line ≠ []
               ∧ json_loads R (strip line) = inr v)
  ∧ (∀ line v, line ∈ splitlines text → strip line ≠ [] →
       json_loads R (strip line) = inr v → v ∈ ndjson_items R text).
Proof.
  unfold ndjson_items. split_and!.
  - apply omap_length_le.
  - intros v (line & Hl & Hv)%list_elem_of_omap. exists line.
    cbv zeta in Hv. destruct (strip line) as [|c s] eqn:Hs; [done|].
    simpl in Hv. destruct (json_loads R (c :: s)) as [e|v'] eqn:Hj; [done|].
    injection Hv as ->. by split_and!.
  - intros line v Hl Hne Hj. apply list_elem_of_omap. exists line.
    split; [done|]. cbv zeta. rewrite Hj.
    by destruct (strip line).
Qed.

Lemma extract_apify_text_fields_clean it :
  clean_text (extract_apify_text_fields it) = extract_apify_text_fields it.
Proof.
  rewrite extract_apify_text_fields_spec. unfold text_fields_spec.
  apply clean_text_idem.
Qed.

(** X15. The lines of a record carry the chunks of its text: chunks of at
    most 800 characters that, concatenated in order, are the text of the
    record, which is already normalised; each line is [SRC:APIFY], the
    source of the record, a bar and the chunk. *)
Theorem apify_item_lines_chunks
    (R : runtime) (actor : json) (it : list (str * json)) :
  ∃ cs,
    apify_item_lines R actor it
    = (fun chunk => lit "SRC:APIFY " ++ fmt R (apify_source it actor)
                      ++ lit " | " ++ chunk) <$> cs
    ∧ Forall (fun chunk => 0 < length chunk ≤ 800) cs
    ∧ concat cs = extract_apify_text_fields it
    ∧ clean_text (extract_apify_text_fields it) = extract_apify_text_fields it.
Proof.
  unfold apify_item_lines.
  destruct (extract_apify_text_fields it) as [|c txt] eqn:Ht.
  - exists []. by split_and!.
  - exists (chunks (c :: txt)). cbn [truthy_str]. split_and!.
    + reflexivity.
    + apply Forall_forall. intros chunk (i & Hi)%list_elem_of_lookup_1.
      destruct (chunks_lookup_length _ _ _ Hi) as [Hlen _]. exact Hlen.
    + apply chunks_concat.
    + rewrite <- Ht. apply extract_apify_text_fields_clean.
Qed.

Lemma apify_items_lines_dicts R actor dicts rest :
  apify_items_lines R actor ((JDict <$> dicts) ++ rest)
  = concat (apify_item_lines R actor <$> dicts)
    ++ apify_items_lines R actor rest.
Proof.
  induction dicts as [|d dicts IH]; [reflexivity|].
  rewrite !fmap_cons. cbn [app apify_items_lines concat].
  by rewrite IH, <- app_assoc.
Qed.

(** X16. The records of an actor are read in order up to the first one that
    is not a mapping: the lines of the records before it are kept, and the
    records after it are not read. *)
Theorem apify_items_lines_stops
    (R : runtime) (actor : json) (dicts : list (list (str * json)))
    (bad : json) (rest : list json) :
  is_dict bad = false →
  apify_items_lines R actor ((JDict <$> dicts) ++ bad :: rest)
  = concat (apify_item_lines R actor <$> dicts)
  ∧ apify_items_lines R actor (JDict <$> dicts)
    = concat (apify_item_lines R actor <$> dicts).
Proof.
  intros Hbad. split.
  - rewrite apify_items_lines_dicts. destruct bad; try done;
      cbn [apify_items_lines]; by rewrite app_nil_r.
  - rewrite <- (app_nil_r (JDict <$> dicts)), apify_items_lines_dicts.
    cbn [apify_items_lines]. by rewrite app_nil_r.
Qed.

Lemma apify_items_lines_stops_witness :
  apify_items_lines hello_site actor_xy
    ((JDict <$> [hi_item]) ++ JStr (lit "oops") :: [JDict empty_url_item])
  = concat (apify_item_lines hello_site actor_xy <$> [hi_item])
  ∧ apify_items_lines hello_site actor_xy (JDict <$> [hi_item])
    = concat (apify_item_lines hello_site actor_xy <$> [hi_item]).
Proof. apply apify_items_lines_stops. reflexivity. Defined.

(** ** More on the actor stage and the whole run *)

Lemma apify_item_lines_prefix R actor it :
  Forall (fun l => is_apify_line l = true) (apify_item_lines R actor it).
Proof.
  unfold apify_item_lines. destruct (truthy_str _); [|constructor].
  apply Forall_fmap, Forall_forall. intros chunk _. apply starts_with_app.
Qed.

Lemma apify_items_lines_prefix R actor items :
  Forall (fun l => is_apify_line l = true) (apify_items_lines R actor items).
Proof.
  induction items as [|it items IH]; [constructor|].
  destruct it; try constructor. cbn [apify_items_lines].
  apply Forall_app. split; [apply apify_item_lines_prefix|exact IH].
Qed.

Lemma apify_entry_run R actor actor_input w :
  ∃ k ls,
    try_except
      (items ← apify_run_sync R actor actor_input;
       ret (apify_items_lines R actor items))
      (fun _ => ret []) w
    = (sent w (replicate k (ApifyRunSync actor actor_input)), inr ls)
    ∧ k ≤ 3
    ∧ Forall (fun l => is_apify_line l = true) ls.
Proof.
  destruct (apify_run_sync_run R actor actor_input w) as (k & r & Hr & Hk & _).
  unfold try_except, mbind, M_bind, bind. rewrite Hr.
  destruct r as [e|items].
  - exists k, []. by split_and!.
  - exists k, (apify_items_lines R actor items). split_and!; [done|done|].
    apply apify_items_lines_prefix.
Qed.

Lemma apify_loop_run R (ds : list (list (str * json))) lines w :
  ∃ new ls,
    apify_loop R lines (JDict <$> ds) w = (sent w new, inr (lines ++ ls))
    ∧ length new ≤ 3 * length ds
    ∧ Forall (fun rq => ∃ cfg, cfg ∈ ds
                               ∧ truthy (dict_get cfg (lit "actor")) = true
                               ∧ rq = actor_request R cfg) new
    ∧ Forall (fun l => is_apify_line l = true) ls.
Proof.
  revert lines w. induction ds as [|cfg ds IH]; intros lines w.
  - exists [], []. simpl. rewrite sent_nil, app_nil_r. by split_and!.
  - rewrite fmap_cons. cbn [apify_loop]. cbv zeta.
    destruct (truthy (dict_get cfg (lit "actor"))) eqn:Hactor; cbn [negb].
    + destruct (apify_entry_run R (dict_get cfg (lit "actor"))
                  (resolve_env_placeholders R
                     (dict_get_default cfg (lit "input") (JDict []))) w)
        as (k & l1 & H1 & Hk & Hl1).
      destruct (IH (lines ++ l1)
                  (sent w (replicate k (actor_request R cfg))))
        as (n2 & l2 & H2 & Hn2 & Hrq & Hl2).
      exists (replicate k (actor_request R cfg) ++ n2), (l1 ++ l2).
      split_and!.
      * unfold mbind, M_bind, bind in *. unfold actor_request in H2.
        rewrite H1, H2, sent_sent. by rewrite <- app_assoc.
      * rewrite length_app, length_replicate. simpl length. lia.
      * apply Forall_app. split.
        -- apply Forall_replicate. exists cfg. set_solver.
        -- eapply Forall_impl; [exact Hrq|]. intros rq (c & Hc & Ht & ->).
           exists c. set_solver.
      * by apply Forall_app.
    + destruct (IH lines w) as (n2 & l2 & H2 & Hn2 & Hrq & Hl2).
      exists n2, l2. split_and!; [done|simpl length; lia| |done].
      eapply Forall_impl; [exact Hrq|]. intros rq (c & Hc & Ht & ->).
      exists c. set_solver.
Qed.

Lemma build_lines_from_apify_run R (ds : list (list (str * json))) w :
  ∃ new lines,
    build_lines_from_apify R (JList (JDict <$> ds)) w = (sent w new, inr lines)
    ∧ length new ≤ 3 * length ds
    ∧ Forall (fun rq => ∃ cfg, cfg ∈ ds
                               ∧ truthy (dict_get cfg (lit "actor")) = true
                               ∧ rq = actor_request R cfg) new
    ∧ Forall (fun l => is_apify_line l = true) lines.
Proof.
  destruct ds as [|cfg ds].
  - exists [], []. simpl. rewrite sent_nil. by split_and!.
  - destruct (apify_loop_run R (cfg :: ds) [] w) as (new & ls & H & Hn & Hrq & Hl).
    exists new, ls. by split_and!.
Qed.

(** X17. On a list of entries that are mappings, the actor stage never
    raises, whatever the network answers: an entry without an actor is
    skipped without a request, every other entry runs its actor with its
    resolved input at most three times, an actor whose run fails adds no
    line, and every line returned starts with [SRC:APIFY] and a space. *)
Theorem build_lines_from_apify_soft_fail
    (R : runtime) (ds : list (list (str * json))) (w : world) :
  ∃ new lines,
    build_lines_from_apify R (JList (JDict <$> ds)) w = (sent w new, inr lines)
    ∧ length new ≤ 3 * length ds
    ∧ Forall (fun rq => ∃ cfg, cfg ∈ ds
                               ∧ truthy (dict_get cfg (lit "actor")) = true
                               ∧ rq = actor_request R cfg) new
    ∧ Forall (fun l => is_apify_line l = true) lines.
Proof. apply build_lines_from_apify_run. Qed.

Lemma apify_loop_bad R (ds : list (list (str * json))) bad rest lines w :
  is_dict bad = false →
  ∃ new,
    apify_loop R lines ((JDict <$> ds) ++ bad :: rest) w
    = (sent w new, inl AttributeError)
    ∧ length new ≤ 3 * length ds.
Proof.
  intros Hbad. revert lines w. induction ds as [|cfg ds IH]; intros lines w.
  - exists []. rewrite sent_nil. split; [|done]. by destruct bad.
  - rewrite fmap_cons. cbn [app apify_loop]. cbv zeta.
    destruct (truthy (dict_get cfg (lit "actor"))) eqn:Hactor; cbn [negb].
    + destruct (apify_entry_run R (dict_get cfg (lit "actor"))
                  (resolve_env_placeholders R
                     (dict_get_default cfg (lit "input") (JDict []))) w)
        as (k & l1 & H1 & Hk & _).
      destruct (IH (lines ++ l1) (sent w (replicate k (actor_request R cfg))))
        as (n2 & H2 & Hn2).
      exists (replicate k (actor_request R cfg) ++ n2). split.
      * unfold mbind, M_bind, bind in *. unfold actor_request in H2.
        by rewrite H1, H2, sent_sent.
      * rewrite length_app, length_replicate. simpl length. lia.
    + destruct (IH lines w) as (n2 & H2 & Hn2).
      exists n2. split; [done|simpl length; lia].
Qed.

(** X18. An entry of the actor list that is not a mapping is not a soft
    failure: the entries before it are run, then the stage raises
    [AttributeError] and their lines are lost with it. *)
Theorem build_lines_from_apify_bad_entry
    (R : runtime) (ds : list (list (str * json))) (bad : json)
    (rest : list json) (w : world) :
  is_dict bad = false →
  ∃ new,
    build_lines_from_apify R (JList ((JDict <$> ds) ++ bad :: rest)) w
    = (sent w new, inl AttributeError)
    ∧ length new ≤ 3 * length ds.
Proof.
  intros Hbad.
  destruct (apify_loop_bad R ds bad rest [] w Hbad) as (new & H & Hn).
  exists new. split; [|done]. unfold build_lines_from_apify.
  assert (truthy (JList ((JDict <$> ds) ++ bad :: rest)) = true) as ->.
  { by destruct ds. }
  exact H.
Qed.

Lemma build_lines_from_apify_bad_entry_witness :
  ∃ new,
    build_lines_from_apify actor_site
      (JList ((JDict <$> [[(lit "actor", actor_xy)]]) ++ JStr (lit "x/y") :: []))
      world0
    = (sent world0 new, inl AttributeError)
    ∧ length new ≤ 3 * length [[(lit "actor", actor_xy)]].
Proof. apply build_lines_from_apify_bad_entry. reflexivity. Defined.

Lemma Forall_any (rqs : list request) : Forall any_request rqs.
Proof. by apply Forall_forall. Qed.

Lemma sends_apify_run_sync R actor actor_input :
  sends any_request (apify_run_sync R actor actor_input).
Proof.
  apply sends_retry_from. unfold apify_run_sync_body.
  destruct (negb _); [apply sends_ret|].
  apply sends_bind; [by apply sends_send|]. intros r.
  apply sends_bind; [apply sends_raise_for_status|]. intros _.
  destruct (r_json r) as [e|[| | | | |data|]]; apply sends_ret.
Qed.

Lemma sends_apify_loop R cfgs lines :
  sends any_request (apify_loop R lines cfgs).
Proof.
  revert lines. induction cfgs as [|cfg cfgs IH]; intros lines.
  - apply sends_ret.
  - destruct cfg; try apply sends_raise. cbn [apify_loop]. cbv zeta.
    destruct (negb _); [apply IH|].
    apply sends_bind; [|intros; apply IH].
    apply sends_try_except; [|intros; apply sends_ret].
    apply sends_bind; [apply sends_apify_run_sync|intros; apply sends_ret].
Qed.

Lemma sends_main_lines_any R : sends any_request (main_lines R).
Proof.
  unfold main_lines. apply sends_bind; [apply sends_lift|]. intros cfg.
  cbv zeta. apply sends_bind.
  - destruct (truthy _); [|apply sends_ret].
    by apply sends_build_lines_from_web.
  - intros from_web. apply sends_bind; [|intros; apply sends_ret].
    destruct (_ && _); [|apply sends_ret]. unfold build_lines_from_apify.
    destruct (negb _); [apply sends_ret|].
    apply sends_bind; [apply sends_lift|intros; apply sends_apify_loop].
Qed.

Lemma main_lines_run R cfg urls ds w :
  read_sources R = inr cfg →
  dict_get_default cfg (lit "web") (JList []) = JList urls →
  dict_get_default cfg (lit "apify") (JList []) = JList (JDict <$> ds) →
  ∃ new lines,
    main_lines R w = (sent w new, inr lines)
    ∧ length new ≤ 5 * length urls + 3 * length ds.
Proof.
  intros Hcfg Hweb Hap.
  destruct (build_lines_from_web_run5 R urls w) as (n1 & l1 & H1 & Hn1 & _).
  unfold main_lines, mbind, M_bind, bind, lift.
  rewrite Hcfg, Hweb, Hap, from_web_step, H1.
  destruct (truthy (JList (JDict <$> ds)) && apify_enabled R).
  - destruct (build_lines_from_apify_run R ds (sent w n1))
      as (n2 & l2 & H2 & Hn2 & _).
    rewrite H2, sent_sent. exists (n1 ++ n2), (aggregate (l1 ++ l2)).
    split; [done|]. rewrite length_app. lia.
  - exists n1, (aggregate (l1 ++ [])). split; [done|lia].
Qed.

(** X19. Once the configuration is loaded with a list of URLs and a list of
    actor entries that are mappings, no answer of the network makes the
    two stages fail: the lines of the run are there after at most five
    requests for each URL and three for each actor entry.  [main] then
    writes them and ends with status 0, unless a line holds a surrogate:
    the text cannot be encoded, the file is left empty and [main] raises
    [UnicodeEncodeError]. *)
Theorem main_soft_fail
    (R : runtime) (cfg : list (str * json)) (urls : list json)
    (ds : list (list (str * json))) (w : world) :
  read_sources R = inr cfg →
  dict_get_default cfg (lit "web") (JList []) = JList urls →
  dict_get_default cfg (lit "apify") (JList []) = JList (JDict <$> ds) →
  ∃ new lines,
    main_lines R w = (sent w new, inr lines)
    ∧ length new ≤ 5 * length urls + 3 * length ds
    ∧ main R w
      = if utf8_encodable (join [NEWLINE] lines)
        then ({| calls := calls w ++ new;
                 out_txt := Some (join [NEWLINE] lines) |}, inr 0%Z)
        else ({| calls := calls w ++ new; out_txt := Some [] |},
              inl UnicodeEncodeError).
Proof.
  intros Hcfg Hweb Hap.
  destruct (main_lines_run R cfg urls ds w Hcfg Hweb Hap)
    as (new & lines & Hm & Hn).
  exists new, lines. split_and!; [done|done|].
  by rewrite (main_of_lines _ _ _ _ Hm).
Qed.

Lemma main_soft_fail_witness :
  ∃ new lines,
    main_lines actor_site world0 = (sent world0 new, inr lines)
    ∧ length new
      ≤ 5 * length (@nil json)
        + 3 * length [[(lit "actor", actor_xy); (lit "input", JDict [])]]
    ∧ main actor_site world0
      = if utf8_encodable (join [NEWLINE] lines)
        then ({| calls := calls world0 ++ new;
                 out_txt := Some (join [NEWLINE] lines) |}, inr 0%Z)
        else ({| calls := calls world0 ++ new; out_txt := Some [] |},
              inl UnicodeEncodeError).
Proof.
  apply (main_soft_fail actor_site
           [(lit "web", JList []);
            (lit "apify",
             JList [JDict [(lit "actor", actor_xy); (lit "input", JDict [])]])]);
    reflexivity.
Defined.

(** A scrape answer whose text holds a lone surrogate: the line is
    formatted, and writing it fails. *)
Example surrogate_site_main :
  main surrogate_site world0
  = ({| calls := [FirecrawlScrape url_a]; out_txt := Some [] |},
     inl UnicodeEncodeError).
Proof. vm_compute. reflexivity. Qed.

(** X20. How a run ends.  The two stages send requests and leave the
    output file alone.  When they raise, [main] raises the same exception
    and the file is as it was.  When they return, the lines have no
    duplicates, none is empty and each is normalised; [main] writes them
    joined by newlines and ends with status 0 if the text can be encoded,
    and else leaves the file empty and raises [UnicodeEncodeError]. *)
Theorem main_outcome (R : runtime) (w : world) :
  ∃ w1 r,
    main_lines R w = (w1, r)
    ∧ out_txt w1 = out_txt w
    ∧ match r with
      | inl e => main R w = (w1, inl e)
      | inr lines =>
          NoDup lines
          ∧ Forall (fun l => l ≠ [] ∧ clean_text l = l) lines
          ∧ main R w
            = if utf8_encodable (join [NEWLINE] lines)
              then ({| calls := calls w1;
                       out_txt := Some (join [NEWLINE] lines) |}, inr 0%Z)
              else ({| calls := calls w1; out_txt := Some [] |},
                    inl UnicodeEncodeError)
      end.
Proof.
  destruct (sends_main_lines_any R w) as (new & Hw & _).
  destruct (main_lines R w) as [w1 r] eqn:Hm. simpl in Hw. subst w1.
  exists (sent w new), r. split_and!; [done|done|].
  destruct r as [e|lines].
  - by apply main_of_raise.
  - split_and!; [| |by apply main_of_lines];
      apply main_lines_aggregate in Hm as [all_lines ->].
    + apply NoDup_dedupe_loop.
    + apply Forall_forall. intros l (x & _ & -> & Hne)%elem_of_aggregate.
      split; [done|apply clean_text_idem].
Qed.

Example read_sources_naive_ex :
  read_sources_naive
    (naive_file (lit "web:" ++ [NEWLINE] ++ lit "  - http://a.test/ "
                 ++ [NEWLINE] ++ lit "  -" ++ [NEWLINE] ++ lit "- b"))
  = [lit "http://a.test/"; lit "b"].
Proof. vm_compute. reflexivity. Qed.

Lemma strip_decomp s :
  ∃ ws1 ws2, Forall is_blank_char ws1 ∧ Forall is_blank_char ws2
             ∧ s = ws1 ++ strip s ++ ws2.
Proof.
  destruct (lstrip_decomp s) as (ws1 & H1 & E1).
  destruct (rstrip_decomp (lstrip s)) as (ws2 & H2 & E2).
  exists ws1, ws2. split_and!; [done|done|].
  unfold strip. by rewrite <- E2.
Qed.

Lemma lstrip_head s c : head (lstrip s) = Some c → nonspace c.
Proof.
  induction s as [|x s IH]; simpl; [done|].
  destruct (isspace x) eqn:Hx; [exact IH|]. simpl. by intros [= <-].
Qed.

Lemma last_rev_head (z : str) : last (rev z) = head z.
Proof. destruct z as [|c z]; [done|]. simpl. by rewrite last_snoc. Qed.

Lemma strip_is_trimmed s : trimmed (strip s).
Proof.
  unfold strip. split; intros c Hc.
  - destruct (rstrip_decomp (lstrip s)) as (ws & _ & E).
    apply (lstrip_head s). rewrite E.
    by destruct (rstrip (lstrip s)).
  - unfold rstrip in Hc. rewrite last_rev_head in Hc. by eapply lstrip_head.
Qed.

Lemma strip_idem s : strip (strip s) = strip s.
Proof. apply strip_trimmed, strip_is_trimmed. Qed.

Lemma strip_last_nonspace r c :
  last r = Some c → nonspace c →
  strip r ≠ [] ∧ ∃ gap, Forall is_blank_char gap ∧ r = gap ++ strip r.
Proof.
  intros Hl Hc. destruct (strip_decomp r) as (ws1 & ws2 & H1 & H2 & E).
  assert (ws2 = []) as ->.
  { destruct ws2 as [|x ws2 _] using rev_ind; [done|]. exfalso.
    rewrite E, !app_assoc, last_snoc in Hl. injection Hl as ->.
    apply Forall_app in H2 as [_ Hx]. apply Forall_inv in Hx.
    unfold is_blank_char, nonspace in *. congruence. }
  rewrite app_nil_r in E. split; [|by exists ws1].
  intros Hs. rewrite Hs, app_nil_r in E. subst r.
  apply last_Some in Hl as [l' ->]. apply Forall_app in H1 as [_ Hx].
  apply Forall_inv in Hx. unfold is_blank_char, nonspace in *. congruence.
Qed.

Lemma starts_with_dash s :
  starts_with (lit "- ") s = true → s = lit "- " ++ drop 2 s.
Proof.
  unfold starts_with. change (lit "- ") with [45%N; 32%N].
  destruct s as [|a [|b r]]; cbn [strip_prefix]; try done.
  - by destruct (45 =? a)%N.
  - destruct (45 =? a)%N eqn:Ha; [|done]. destruct (32 =? b)%N eqn:Hb; [|done].
    apply N.eqb_eq in Ha, Hb. by subst.
Qed.

Lemma naive_url_Some line url :
  naive_url line = Some url →
  url ≠ [] ∧ strip url = url
  ∧ ∃ gap, Forall is_blank_char gap ∧ strip line = lit "- " ++ gap ++ url.
Proof.
  unfold naive_url. cbv zeta.
  destruct (starts_with (lit "- ") (strip line)) eqn:Hs; [|done].
  intros [= <-]. apply starts_with_dash in Hs.
  set (r := drop 2 (strip line)) in *.
  assert (∃ c, last r = Some c ∧ nonspace c) as (c & Hl & Hc).
  { pose proof (strip_is_trimmed line) as [_ Hlast]. rewrite Hs in Hlast.
    destruct r as [|x r'] using rev_ind.
    - exfalso. specialize (Hlast 32%N eq_refl). discriminate Hlast.
    - exists x. rewrite last_snoc. split; [done|]. apply Hlast.
      change (lit "- " ++ r' ++ [x]) with (45%N :: 32%N :: r' ++ [x]).
      by rewrite !last_cons, last_snoc. }
  destruct (strip_last_nonspace r c Hl Hc) as (Hne & gap & Hgap & Hr).
  split_and!; [done|apply strip_idem|]. exists gap. split; [done|].
  by rewrite Hs at 1; rewrite Hr at 1.
Qed.

(** X21. Every URL that [read_sources_naive] returns comes from a line of
    the file that, stripped, is a dash, a space, possibly more blanks, and
    the URL; the URL is not empty and has no whitespace at either end.  A
    file that is absent or cannot be read gives no URL. *)
Theorem read_sources_naive_urls (N : naive_runtime) :
  (∀ url, url ∈ read_sources_naive N →
     url ≠ [] ∧ strip url = url
     ∧ ∃ text line gap,
         naive_sources N = Some (inr text) ∧ line ∈ splitlines text
         ∧ Forall is_blank_char gap
         ∧ strip line = lit "- " ++ gap ++ url)
  ∧ (naive_sources N = None → read_sources_naive N = [])
  ∧ (∀ e, naive_sources N = Some (inl e) → read_sources_naive N = []).
Proof.
  unfold read_sources_naive. split_and!.
  - destruct (naive_sources N) as [[e|text]|]; try by intros url ?%elem_of_nil.
    intros url (line & Hline & Hu)%list_elem_of_omap.
    destruct (naive_url_Some line url Hu) as (Hne & Hs & gap & Hgap & E).
    split_and!; [done|done|]. by exists text, line, gap.
  - by intros ->.
  - by intros e ->.
Qed.

Lemma trimmed_of_strip u : strip u = u → trimmed u.
Proof. intros <-. apply strip_is_trimmed. Qed.

Lemma naive_url_dash u :
  u ≠ [] → strip u = u → naive_url (lit "- " ++ u) = Some u.
Proof.
  intros Hne Hs. unfold naive_url. cbv zeta.
  assert (strip (lit "- " ++ u) = lit "- " ++ u) as ->.
  { apply strip_trimmed. destruct (trimmed_of_strip u Hs) as [_ Hlast].
    split; intros c Hc.
    - by injection Hc as <-.
    - apply Hlast. destruct u as [|x u]; [done|].
      change (lit "- " ++ x :: u) with (45%N :: 32%N :: x :: u) in Hc.
      by rewrite !last_cons_cons in Hc. }
  rewrite starts_with_app. change (drop 2 (lit "- " ++ u)) with u.
  by rewrite Hs.
Qed.

(** X22. Reading back what was written: a file made of one line
    [- url] for each URL of a list, joined by newlines, gives that list,
    when the URLs are not empty, have no whitespace at either end and hold
    no line break. *)
Theorem read_sources_naive_round_trip (N : naive_runtime) (urls : list str) :
  Forall (fun u => u ≠ [] ∧ strip u = u ∧ no_linebreak u) urls →
  naive_sources N = Some (inr (join [NEWLINE] ((fun u => lit "- " ++ u) <$> urls))) →
  read_sources_naive N = urls.
Proof.
  intros Hu Hf. unfold read_sources_naive. rewrite Hf.
  rewrite splitlines_join.
  - clear Hf. induction Hu as [|u urls (Hne & Hs & _) _ IH]; [done|].
    rewrite fmap_cons.
    change (omap naive_url ((lit "- " ++ u) :: ?l))
      with (match naive_url (lit "- " ++ u) with
            | Some y => y :: omap naive_url l
            | None => omap naive_url l
            end).
    rewrite naive_url_dash by done. by rewrite IH.
  - apply Forall_fmap. eapply Forall_impl; [exact Hu|].
    intros u (_ & _ & Hl). split; [done|].
    change (lit "- " ++ u) with (45%N :: 32%N :: u).
    by repeat constructor.
Qed.

Lemma read_sources_naive_round_trip_witness :
  read_sources_naive
    (naive_file (join [NEWLINE]
                   ((fun u => lit "- " ++ u) <$> [lit "http://a.test/"; lit "b"])))
  = [lit "http://a.test/"; lit "b"].
Proof.
  apply read_sources_naive_round_trip; [|reflexivity].
  repeat constructor; try done; vm_compute; reflexivity.
Defined.

Lemma flush_no_linebreak cur :
  no_linebreak cur →
  Forall no_linebreak (match cur with [] => [] | _ => [cur] end).
Proof. intros H. destruct cur; [constructor|]. constructor; [done|constructor]. Qed.

Lemma splitlines_from_no_linebreak n cur s :
  length s ≤ n → no_linebreak cur →
  Forall no_linebreak (splitlines_from cur s).
Proof.
  revert cur s. induction n as [|n IH]; intros cur s Hn Hcur.
  - destruct s; [|simpl in Hn; lia]. by apply flush_no_linebreak.
  - destruct s as [|c s]; [by apply flush_no_linebreak|].
    simpl in Hn. cbn [splitlines_from]. destruct (is_linebreak c) eqn:Hc.
    + destruct s as [|c' s']; [constructor; [done|constructor]|].
      simpl in Hn. destruct (_ && _); constructor; try done.
      * apply IH; [lia|constructor].
      * apply IH; [simpl; lia|constructor].
    + apply IH; [lia|]. apply Forall_app. split; [done|].
      constructor; [done|constructor].
Qed.

Lemma splitlines_no_linebreak text : Forall no_linebreak (splitlines text).
Proof. apply (splitlines_from_no_linebreak (length text)); [done|constructor]. Qed.

Lemma strip_Forall (P : char → Prop) s : Forall P s → Forall P (strip s).
Proof.
  intros H. destruct (strip_decomp s) as (ws1 & ws2 & _ & _ & E).
  rewrite E in H. apply Forall_app in H as [_ H]. by apply Forall_app in H as [H _].
Qed.

Lemma no_linebreak_check s :
  forallb (fun c => negb (is_linebreak c)) s = true → no_linebreak s.
Proof.
  intros H. apply Forall_forall. intros c Hc%list_elem_of_In.
  rewrite forallb_forall in H. specialize (H c Hc). by apply negb_true_iff in H.
Qed.

Lemma read_sources_naive_no_linebreak N :
  Forall no_linebreak (read_sources_naive N).
Proof.
  unfold read_sources_naive.
  destruct (naive_sources N) as [[e|text]|]; try constructor.
  apply Forall_forall. intros url (line & Hline & Hu)%list_elem_of_omap.
  unfold naive_url in Hu. cbv zeta in Hu.
  destruct (starts_with _ _); [|done]. injection Hu as <-.
  apply strip_Forall, Forall_drop, strip_Forall.
  pose proof (splitlines_no_linebreak text) as H. rewrite Forall_forall in H.
  by apply H.
Qed.

Lemma naive_line_plain url :
  no_linebreak url →
  naive_line url ≠ [] ∧ no_linebreak (naive_line url).
Proof.
  intros H. split; [done|]. unfold naive_line, no_linebreak.
  rewrite !Forall_app. split_and!; [|done|]; by apply no_linebreak_check.
Qed.

(** X23. The naive [main] always ends with status 0.  It writes the build
    stamp and then one [SOURCE] line for each URL read from the file, or for
    the default URL alone when none was read; with a time stamp free of line
    breaks, the file read back line by line is exactly these lines. *)
Theorem naive_main_lines (N : naive_runtime) :
  no_linebreak (utcnow_isoformat N) →
  ∃ urls,
    (read_sources_naive N = [] → urls = [DEFAULT_URL])
    ∧ (read_sources_naive N ≠ [] → urls = read_sources_naive N)
    ∧ naive_main N
      = (join [NEWLINE] (naive_stamp N :: (naive_line <$> urls)), 0%Z)
    ∧ splitlines (naive_main N).1 = naive_stamp N :: (naive_line <$> urls)
    ∧ 2 ≤ length (splitlines (naive_main N).1).
Proof.
  intros Hts. pose proof (read_sources_naive_no_linebreak N) as Hu.
  set (urls := match read_sources_naive N with
               | [] => [DEFAULT_URL]
               | us => us
               end).
  assert (Forall no_linebreak urls ∧ urls ≠ []) as [Hurls Hne].
  { subst urls. destruct (read_sources_naive N); [|done].
    split; [|done]. constructor; [|constructor].
    by apply no_linebreak_check. }
  assert (splitlines (naive_main N).1 = naive_stamp N :: (naive_line <$> urls))
    as Hsplit.
  { apply splitlines_join. constructor.
    - split; [done|]. unfold naive_stamp, no_linebreak. rewrite !Forall_app.
      split_and!; [|done|]; by apply no_linebreak_check.
    - apply Forall_fmap. eapply Forall_impl; [exact Hurls|].
      intros u Hl. by apply naive_line_plain. }
  exists urls. split_and!.
  - subst urls. by intros ->.
  - subst urls. by destruct (read_sources_naive N).
  - reflexivity.
  - exact Hsplit.
  - rewrite Hsplit. destruct urls; [done|]. simpl. lia.
Qed.

Lemma naive_main_lines_witness :
  ∃ urls,
    (read_sources_naive (naive_file (lit "web: []")) = [] → urls = [DEFAULT_URL])
    ∧ (read_sources_naive (naive_file (lit "web: []")) ≠ [] →
       urls = read_sources_naive (naive_file (lit "web: []")))
    ∧ naive_main (naive_file (lit "web: []"))
      = (join [NEWLINE]
           (naive_stamp (naive_file (lit "web: []")) :: (naive_line <$> urls)),
         0%Z)
    ∧ splitlines (naive_main (naive_file (lit "web: []"))).1
      = naive_stamp (naive_file (lit "web: []")) :: (naive_line <$> urls)
    ∧ 2 ≤ length (splitlines (naive_main (naive_file (lit "web: []"))).1).
Proof.
  apply naive_main_lines. apply no_linebreak_check. vm_compute. reflexivity.
Defined.

(** X24. The order of the fallbacks for one URL.  The text of the
    scraping service is used when it is not empty, and then no direct fetch
    is made.  When the service gave nothing or an empty text, and also when
    [firecrawl_scrape] raised, the URL is fetched directly after whatever
    was sent to the service.  [firecrawl_scrape] raises only with a key
    that is set and holds a character beyond ASCII, and then it has sent
    nothing.  Fetching the text of a URL never raises. *)
Theorem web_fetch_text_fallback (R : runtime) (url : json) (w : world) :
  ∃ w1 r,
    firecrawl_scrape R url w = (w1, r)
    ∧ web_fetch_text R url w
      = match r with
        | inr (Some (c :: t)) => (w1, inr (Some (c :: t)))
        | _ => direct_fetch_text R url w1
        end
    ∧ (∀ e, r = inl e →
         w1 = w ∧ firecrawl_enabled R = true
         ∧ ascii_encodable (FIRECRAWL_API_KEY R) = false)
    ∧ ∃ t, (web_fetch_text R url w).2 = inr t.
Proof.
  destruct (firecrawl_scrape_run R url w) as (new & r & Hf & Hnew).
  exists (sent w new), r. split_and!; [done| | |apply total_web_fetch_text].
  - by apply web_fetch_text_after.
  - intros e ->. destruct (firecrawl_enabled R);
      [destruct (ascii_encodable _)|].
    + by destruct Hnew as (t & Ht & _).
    + destruct Hnew as [-> _]. by rewrite sent_nil.
    + by destruct Hnew as [_ Hr].
Qed.
